(** * Durachok card-game engine: deck helpers and the [Game] class

    A shallow embedding of the JavaScript engine module
    ([CardLabels], [CardSuits], [generateCardDeck], [parseCard],
    [shuffleDeck] and the class [Game]) together with the properties the
    specification states about it.

    JavaScript is dynamically typed and several statements of the engine
    produce values of another type than the one the surrounding code
    expects ([Array.prototype.reduce] used with a one-argument callback,
    [.length] read from a boolean, [split] called on [null]).  The
    embedding therefore keeps a small universe of JavaScript values and
    models each built-in on that universe, including the [TypeError]s the
    built-ins raise. *)

From Stdlib Require Import Ascii String QArith Qround.
From stdpp Require Import base list strings.


(** ** JavaScript values *)

(** Numbers that occur in the engine are finite rationals (array lengths,
    the requested player count) or [NaN] (arithmetic on [undefined]). *)
Inductive number : Type :=
  | NaN
  | Finite (q : Q).

Inductive prim : Type :=
  | JUndefined
  | JNull
  | JBool (b : bool)
  | JNum (n : number)
  | JStr (s : string).

(** A property of the game object holds a primitive or an array of
    primitives (every array of the engine holds card strings). *)
Inductive jsvalue : Type :=
  | Prim (p : prim)
  | Arr (a : list prim).

(** What a [throw] carries: [new Error(message)] thrown by the engine
    itself, or the [TypeError] raised by a built-in. *)
Inductive exn : Type :=
  | Error (message : string)
  | TypeError.

(** Completion of an expression or statement: normal, or abrupt by a
    [throw]. *)
Inductive completion (A : Type) : Type :=
  | Normal (a : A)
  | Throw (e : exn).
Arguments Normal {A} a.
Arguments Throw {A} e.

Definition of_nat (n : nat) : number := Finite (inject_Z (Z.of_nat n)).

(** [ToNumber] on the operands the engine computes with: the results of
    [.length], which are numbers or [undefined].  No string reaches an
    arithmetic operator of the engine; the string case is listed for
    totality only. *)
Definition ToNumber (p : prim) : number :=
  match p with
  | JNum n => n
  | JUndefined => NaN
  | JNull => Finite 0
  | JBool true => Finite 1
  | JBool false => Finite 0
  | JStr _ => NaN
  end.

Definition Qlt_bool (x y : Q) : bool := negb (Qle_bool y x).

Definition num_add (a b : number) : number :=
  match a, b with
  | Finite x, Finite y => Finite (x + y)
  | _, _ => NaN
  end.

Definition num_sub (a b : number) : number :=
  match a, b with
  | Finite x, Finite y => Finite (x - y)
  | _, _ => NaN
  end.

(** [a < b]; every comparison with [NaN] is [false]. *)
Definition num_lt (a b : number) : bool :=
  match a, b with
  | Finite x, Finite y => Qlt_bool x y
  | _, _ => false
  end.

Definition num_gt (a b : number) : bool := num_lt b a.

Definition num_eqb (a b : number) : bool :=
  match a, b with
  | Finite x, Finite y => Qeq_bool x y
  | _, _ => false
  end.

Definition Number_isInteger (n : number) : bool :=
  match n with
  | Finite q => Qeq_bool q (inject_Z (Qfloor q))
  | NaN => false
  end.

(** Strict equality [===] on primitives. *)
Definition strict_eq (x y : prim) : bool :=
  match x, y with
  | JUndefined, JUndefined => true
  | JNull, JNull => true
  | JBool a, JBool b => Bool.eqb a b
  | JNum a, JNum b => num_eqb a b
  | JStr a, JStr b => String.eqb a b
  | _, _ => false
  end.

(** [SameValueZero], the comparison of [Array.prototype.includes]:
    strict equality, except that [NaN] equals itself. *)
Definition same_value_zero (x y : prim) : bool :=
  match x, y with
  | JNum NaN, JNum NaN => true
  | _, _ => strict_eq x y
  end.

(** ** Strings

    Strings are kept as their UTF-8 bytes.  The separator of [parseCard]
    is ASCII, so splitting and substring search on the bytes agree with
    the same operations on UTF-16 code units; only [.length] counts code
    units and is computed from the bytes. *)

Definition utf16_units (c : ascii) : nat :=
  let b := N_of_ascii c in
  if (b <? 128)%N then 1
  else if (b <? 192)%N then 0
  else if (b <? 240)%N then 1
  else 2.

Fixpoint String_length (s : string) : nat :=
  match s with
  | EmptyString => 0
  | String c s' => utf16_units c + String_length s'
  end.

(** Whether [sub] occurs in [s] at position 0. *)
Fixpoint starts_with (s sub : string) {struct sub} : bool :=
  match sub with
  | EmptyString => true
  | String a sub' =>
      match s with
      | EmptyString => false
      | String b s' => Ascii.eqb a b && starts_with s' sub'
      end
  end.

(** [s.includes(sub)] on strings. *)
Fixpoint String_includes (s sub : string) : bool :=
  starts_with s sub ||
  match s with
  | EmptyString => false
  | String _ s' => String_includes s' sub
  end.

(** [s.split(sep)] for a non-empty separator: the leftmost occurrence of
    [sep] ends the current piece, the scan resumes after it.  [skip]
    counts the characters of a matched separator still to pass over and
    [cur] is the piece read so far. *)
Fixpoint split_from (sep : string) (skip : nat) (cur s : string) : list string :=
  match s with
  | EmptyString => [cur]
  | String c s' =>
      match skip with
      | S k => split_from sep k cur s'
      | O =>
          if starts_with s sep
          then cur :: split_from sep (String.length sep - 1) "" s'
          else split_from sep 0 (cur +:+ String c "") s'
      end
  end.

Definition String_split (s sep : string) : list string := split_from sep 0 "" s.

(** ** Arrays *)

(** [a.includes(x)] *)
Definition Array_includes (a : list prim) (x : prim) : bool :=
  existsb (fun y => same_value_zero y x) a.

(** [a.reduce(callback)] without initial value: the first element seeds
    the accumulator; an empty array raises a [TypeError]. *)
Definition Array_reduce (callback : prim -> prim -> prim) (a : list prim) : completion prim :=
  match a with
  | [] => Throw TypeError
  | x :: rest => Normal (fold_left callback rest x)
  end.

(** [a[i]]: [undefined] outside the array. *)
Definition Array_get (a : list prim) (i : nat) : prim := default JUndefined (a !! i).

(** [a[i] = x]: an index past the end extends the array, the gap reads
    as [undefined]. *)
Definition Array_set (a : list prim) (i : nat) (x : prim) : list prim :=
  if decide (i < length a) then <[i := x]> a
  else a ++ replicate (i - length a) JUndefined ++ [x].

(** [a.shift()]: the removed head ([undefined] on an empty array) and the
    rest. *)
Definition Array_shift (a : list prim) : prim * list prim :=
  match a with
  | [] => (JUndefined, [])
  | x :: rest => (x, rest)
  end.

(** [a.push(x)] *)
Definition Array_push (a : list prim) (x : prim) : list prim := a ++ [x].

(** ** Objects used as maps

    Own string-keyed properties in insertion order.  The keys the engine
    inserts (player ids, card strings) are never array indices, so
    [Object.keys] lists them in insertion order. *)
Definition object (A : Type) : Type := list (string * A).

Fixpoint prop_get {A} (o : object A) (k : string) : option A :=
  match o with
  | [] => None
  | (k', v) :: o' => if String.eqb k' k then Some v else prop_get o' k
  end.

(** [o[k] = v]: overwrite in place, or append a new property. *)
Fixpoint prop_set {A} (o : object A) (k : string) (v : A) : object A :=
  match o with
  | [] => [(k, v)]
  | (k', v') :: o' =>
      if String.eqb k' k then (k', v) :: o' else (k', v') :: prop_set o' k v
  end.

Definition Object_keys {A} (o : object A) : list string := map fst o.
Definition Object_values {A} (o : object A) : list A := map snd o.

(** The properties every object created by [{}] inherits from
    [Object.prototype]: a read [o[k]] of one of these names finds a
    built-in function (for [__proto__], the prototype object) unless
    the object has an own property of that name. *)
Definition Object_prototype : list string :=
  ["constructor"; "hasOwnProperty"; "isPrototypeOf"; "propertyIsEnumerable";
   "toLocaleString"; "toString"; "valueOf"; "__proto__";
   "__defineGetter__"; "__defineSetter__"; "__lookupGetter__"; "__lookupSetter__"].

(** ** Deck helpers *)

Definition CardLabels : list string :=
  ["2"; "3"; "4"; "5"; "6"; "7"; "8"; "9"; "10"; "Jack"; "Queen"; "King"; "Ace"].

Definition CardSuits : list string := ["♡"; "♢"; "♣"; "♤"].

(** The template literal [`${label} of ${suit}`]. *)
Definition card_string (label suit : string) : string := label +:+ " of " +:+ suit.

Definition generateCardDeck : list string :=
  concat (map (fun label => map (fun suit => card_string label suit) CardSuits) CardLabels).

(** [card.split(" of ")]; a receiver without a [split] method ([null],
    [undefined], a boolean, a number) raises a [TypeError]. *)
Definition parseCard (card : prim) : completion (list prim) :=
  match card with
  | JStr s => Normal (map JStr (String_split s " of "))
  | _ => Throw TypeError
  end.

(** ** The shuffle

    [random k] is the result of the [k]-th call of [Math.random()], a
    number in the interval from 0 (included) to 1 (excluded). *)

(** [Math.floor(Math.random() * currentIndex)] for the draw [r].  The
    product is taken exactly; the code rounds it to a double, which can
    select another index for the same draw (a third rounded down, times
    three, rounds to one) but never one outside [0 .. currentIndex - 1].
    What holds for all draws below therefore covers every sequence of
    indices the code can select; nothing is stated about which draw
    selects which index. *)
Definition random_index (r : Q) (currentIndex : nat) : nat :=
  Z.to_nat (Qfloor (r * inject_Z (Z.of_nat currentIndex))).

(** The [while (0 !== currentIndex)] loop; [calls] counts the draws made
    so far. *)
Fixpoint shuffle_loop (random : nat -> Q) (calls currentIndex : nat)
    (deck : list prim) : list prim :=
  match currentIndex with
  | O => deck
  | S currentIndex' =>
      let randomIndex := random_index (random calls) currentIndex in
      let temp := Array_get deck currentIndex' in
      let deck := Array_set deck currentIndex' (Array_get deck randomIndex) in
      let deck := Array_set deck randomIndex temp in
      shuffle_loop random (S calls) currentIndex' deck
  end.

Definition shuffleDeck (random : nat -> Q) (deck : list prim) : list prim :=
  shuffle_loop random 0 (length deck) deck.

(** ** The game object *)

Record Player : Type := mkPlayer {
  player_deck : jsvalue;
  startsFirst : bool;
  defending : bool
}.

Record Game : Type := mkGame {
  history : object prim;
  players : object Player;
  tableTop : object prim;
  deck : list prim;
  trumpSuite : prim
}.

Definition with_history (h : object prim) (g : Game) : Game :=
  mkGame h (players g) (tableTop g) (deck g) (trumpSuite g).
Definition with_players (ps : object Player) (g : Game) : Game :=
  mkGame (history g) ps (tableTop g) (deck g) (trumpSuite g).
Definition with_tableTop (t : object prim) (g : Game) : Game :=
  mkGame (history g) (players g) t (deck g) (trumpSuite g).
Definition with_deck (d : list prim) (g : Game) : Game :=
  mkGame (history g) (players g) (tableTop g) d (trumpSuite g).
Definition with_trumpSuite (s : prim) (g : Game) : Game :=
  mkGame (history g) (players g) (tableTop g) (deck g) s.
Definition with_player_deck (d : jsvalue) (p : Player) : Player :=
  mkPlayer d (startsFirst p) (defending p).

(** ** Statements of a method: state and exceptions

    A method body runs on the game object [this]; it completes normally
    or by a [throw], and in both cases leaves the object in the state
    reached so far. *)
Definition action (A : Type) : Type := Game -> completion A * Game.

#[global] Instance completion_ret : MRet completion := @Normal.
#[global] Instance completion_bind : MBind completion :=
  fun A B k c => match c with Normal a => k a | Throw e => Throw e end.

#[global] Instance action_ret : MRet action := fun A a g => (Normal a, g).
#[global] Instance action_bind : MBind action :=
  fun A B k m g =>
    match m g with
    | (Normal a, g') => k a g'
    | (Throw e, g') => (Throw e, g')
    end.

(** [throw e] *)
Definition throw {A} (e : exn) : action A := fun g => (Throw e, g).
(** reading [this] *)
Definition this : action Game := fun g => (Normal g, g).
(** an assignment to a property of [this] *)
Definition assign (f : Game -> Game) : action unit := fun g => (Normal tt, f g).
(** an expression that reads no state *)
Definition eval {A} (c : completion A) : action A := fun g => (c, g).

(** [for (x of l) body] *)
Fixpoint for_each {A} (l : list A) (body : A -> action unit) : action unit :=
  match l with
  | [] => mret tt
  | x :: l' => body x ;; for_each l' body
  end.

(** [l.map(f)] with a callback that may throw. *)
Fixpoint map_callback {A B} (f : A -> completion B) (l : list A) : completion (list B) :=
  match l with
  | [] => Normal []
  | x :: l' => y ← f x; ys ← map_callback f l'; Normal (y :: ys)
  end.

(** ** Property and method access on a value that may not be an array *)

(** [v.length] *)
Definition length_of (v : jsvalue) : completion prim :=
  match v with
  | Arr a => Normal (JNum (of_nat (length a)))
  | Prim (JStr s) => Normal (JNum (of_nat (String_length s)))
  | Prim JNull | Prim JUndefined => Throw TypeError
  | Prim (JBool _) | Prim (JNum _) => Normal JUndefined
  end.

(** [v.includes(card)]: the array method, or the substring test when the
    receiver is a string; other receivers have no such method. *)
Definition includes_of (v : jsvalue) (card : string) : completion bool :=
  match v with
  | Arr a => Normal (Array_includes a (JStr card))
  | Prim (JStr s) => Normal (String_includes s card)
  | Prim _ => Throw TypeError
  end.

(** [v.reduce(callback)]: only arrays have the method. *)
Definition reduce_of (callback : prim -> prim -> prim) (v : jsvalue) : completion prim :=
  match v with
  | Arr a => Array_reduce callback a
  | Prim _ => Throw TypeError
  end.

(** [v.push(x)] *)
Definition push_of (v : jsvalue) (x : prim) : completion jsvalue :=
  match v with
  | Arr a => Normal (Arr (Array_push a x))
  | Prim _ => Throw TypeError
  end.

(** ** The class [Game] *)

Definition DECK_SIZE : nat := 6.

(** The object literal stored for a new player. *)
Definition new_player : Player := mkPlayer (Arr []) false false.

(** The messages of the errors the engine throws, under the names the
    specification gives to the error kinds. *)
Definition NotPositiveInteger : exn := Error "Number of players must be a positive integer.".
Definition MoreThanEight : exn := Error "Number of players cannot be greater than eight.".
Definition TableFull : exn := Error "Player deck already full.".
Definition UnknownPlayer : exn := Error "Player doesn't exist.".
Definition InsufficientDefenderCards : exn :=
  Error "Player doesn't have enough cards to cover attack.".
Definition InvalidCard : exn := Error "Invalid card".
Definition CardNotHeld : exn := Error "Player doesn't hold current card".
Definition RankNotOnTable : exn :=
  Error "Card numerical value isn't present on the table top.".

(** How often the body of [for (let index = 0; index < players; index++)]
    runs: once for every natural number below [players]. *)
Definition iterations (players_ : number) : nat :=
  match players_ with
  | Finite q => Z.to_nat (Qceiling q)
  | NaN => 0
  end.

(** The object [new] hands to the constructor: no property assigned yet. *)
Definition blank : Game := mkGame [] [] [] [] JUndefined.

(** [Object.entries(this.tableTop).flat()] *)
Definition getTableTopDeck : action (list prim) :=
  g ← this;
  mret (concat (map (fun entry => [JStr (fst entry); snd entry]) (tableTop g))).

(** [this.players[id].deck.push(this.deck.shift())]: the receiver is
    looked up first, then the argument is evaluated, then [push] is
    called. *)
Definition deal_card (id : string) : action unit :=
  g ← this;
  match prop_get (players g) id with
  | None => throw TypeError
  | Some player =>
      match player_deck player with
      | Prim JNull | Prim JUndefined => throw TypeError
      | receiver =>
          assign (with_deck (snd (Array_shift (deck g)))) ;;
          pushed ← eval (push_of receiver (fst (Array_shift (deck g))));
          assign (fun g' =>
            with_players (prop_set (players g') id (with_player_deck pushed player)) g')
      end
  end.

Section GameClass.

(** The two sources of fresh values: [random k] is the [k]-th result
    of [Math.random()], [nanoid k] the [k]-th generated id. *)
Variable random : nat -> Q.
Variable nanoid : nat -> string.

(** [constructor(id, players, history)]; the arguments [id] and
    [history] are not read. *)
Definition constructor (players_ : number) : action unit :=
  assign (with_history []) ;;
  assign (with_players []) ;;
  assign (with_tableTop []) ;;
  assign (with_deck (map JStr generateCardDeck)) ;;
  assign (fun g => with_deck (shuffleDeck random (deck g)) g) ;;
  (if negb (Number_isInteger players_) && num_lt players_ (Finite 0)
   then throw NotPositiveInteger
   else if num_gt players_ (Finite 8)
   then throw MoreThanEight
   else
     for_each (seq 0 (iterations players_)) (fun index =>
       let id := nanoid index in
       assign (fun g => with_players (prop_set (players g) id new_player) g))) ;;
  for_each (seq 0 DECK_SIZE) (fun index =>
    g ← this;
    for_each (Object_keys (players g)) deal_card) ;;
  g ← this;
  parts ← eval (parseCard (Array_get (deck g) 0));
  assign (with_trumpSuite (Array_get parts 1)) ;;
  assign (fun g' =>
    with_deck (Array_push (snd (Array_shift (deck g'))) (fst (Array_shift (deck g')))) g').

(** [new Game(id, players, history)] *)
Definition new_Game (players_ : number) : completion Game :=
  match constructor players_ blank with
  | (Normal _, g) => Normal g
  | (Throw e, _) => Throw e
  end.

(** Stations of the constructor, used to state what it has done so
    far: the object after the shuffle, and after the players with the
    indices below [n] were entered. *)
Definition shuffled : Game :=
  mkGame [] [] [] (shuffleDeck random (map JStr generateCardDeck)) JUndefined.

Definition add_player (ps : object Player) (index : nat) : object Player :=
  prop_set ps (nanoid index) new_player.

Definition seated (n : nat) : Game :=
  with_players (fold_left add_player (seq 0 n) []) shuffled.

End GameClass.

(** The statements of the constructor that follow the creation of the
    players: the deal, the choice of the trump suit and the move of the
    trump card to the end of the stock. *)
Definition deal_and_cut : action unit :=
  for_each (seq 0 DECK_SIZE) (fun index =>
    g ← this;
    for_each (Object_keys (players g)) deal_card) ;;
  g ← this;
  parts ← eval (parseCard (Array_get (deck g) 0));
  assign (with_trumpSuite (Array_get parts 1)) ;;
  assign (fun g' =>
    with_deck (Array_push (snd (Array_shift (deck g'))) (fst (Array_shift (deck g')))) g').

(** What [this.players[from]] finds: a player entered by the
    constructor, or a value inherited from [Object.prototype], or
    nothing ([undefined]). *)
Inductive member : Type :=
  | Own (player : Player)
  | Inherited.

Definition member_of (ps : object Player) (k : string) : option member :=
  match prop_get ps k with
  | Some player => Some (Own player)
  | None => if bool_decide (k ∈ Object_prototype) then Some Inherited else None
  end.

(** [player.deck]; the inherited values have no property [deck]. *)
Definition deck_of (m : member) : jsvalue :=
  match m with
  | Own player => player_deck player
  | Inherited => Prim JUndefined
  end.

(** [player.deck = d], seen from [this.players]: an assignment to an
    inherited value does not touch the game object. *)
Definition set_deck (k : string) (m : member) (d : jsvalue)
    (ps : object Player) : object Player :=
  match m with
  | Own player => prop_set ps k (with_player_deck d player)
  | Inherited => ps
  end.

Definition addCardToTableTop (from card : string) : action unit :=
  g ← this;
  if negb (length (Object_keys (tableTop g)) <? 6)%nat
  then throw TableFull
  else
    match member_of (players g) from with
    | None => throw UnknownPlayer
    | Some player =>
        reduced ← eval (Array_reduce (fun item _ => JBool (negb (strict_eq item JNull)))
                          (Object_values (tableTop g)));
        coveredCards ← eval (length_of (Prim reduced));
        handLength ← eval (length_of (deck_of player));
        if num_gt
             (num_add (num_sub (of_nat (length (Object_keys (tableTop g))))
                               (ToNumber coveredCards))
                      (Finite 1))
             (ToNumber handLength)
        then throw InsufficientDefenderCards
        else
          parts ← eval (parseCard (JStr card));
          let cardLabel := Array_get parts 0 in
          let cardSuite := Array_get parts 1 in
          if negb (Array_includes (map JStr CardLabels) cardLabel)
             || negb (Array_includes (map JStr CardSuits) cardSuite)
          then throw InvalidCard
          else
            held ← eval (includes_of (deck_of player) card);
            if negb held
            then throw CardNotHeld
            else
              tableDeck ← getTableTopDeck;
              labels ← eval (map_callback
                               (fun item => parsed ← parseCard item;
                                            Normal (Array_get parsed 0))
                               tableDeck);
              if negb (Array_includes labels cardLabel)
              then throw RankNotOnTable
              else
                assign (fun g' => with_tableTop (prop_set (tableTop g') card JNull) g') ;;
                rest ← eval (reduce_of
                               (fun item _ => JBool (negb (strict_eq item (JStr card))))
                               (deck_of player));
                assign (fun g' =>
                  with_players (set_deck from player (Prim rest) (players g')) g')
    end.

(** The remaining methods have empty bodies. *)
Definition coverCardOnTableTop (card coveringCard : string) : action unit := mret tt.
Definition addHistoryNode : action unit := mret tt.
Definition moveTableTopTo (to : string) : action unit := mret tt.
Definition voidTableTop : action unit := mret tt.
Definition serialize : action unit := mret tt.

(** ** Sequences of method calls *)

Inductive call : Type :=
  | AddCardToTableTop (from card : string)
  | CoverCardOnTableTop (card coveringCard : string)
  | GetTableTopDeck
  | AddHistoryNode
  | MoveTableTopTo (to : string)
  | VoidTableTop
  | Serialize.

(** The state a call leaves behind, whether it returns or throws. *)
Definition after (c : call) (g : Game) : Game :=
  match c with
  | AddCardToTableTop from card => snd (addCardToTableTop from card g)
  | CoverCardOnTableTop card coveringCard => snd (coverCardOnTableTop card coveringCard g)
  | GetTableTopDeck => snd (getTableTopDeck g)
  | AddHistoryNode => snd (addHistoryNode g)
  | MoveTableTopTo to => snd (moveTableTopTo to g)
  | VoidTableTop => snd (voidTableTop g)
  | Serialize => snd (serialize g)
  end.

Inductive reachable (g0 : Game) : Game -> Prop :=
  | reachable_new : reachable g0 g0
  | reachable_call g c : reachable g0 g -> reachable g0 (after c g).

(** ** Where the cards are *)

(** The cards a player holds: the elements of the hand array.  A hand
    that is no array any more (what [addCardToTableTop] leaves behind)
    is counted as holding no card. *)
Definition hand (p : Player) : list prim :=
  match player_deck p with
  | Arr a => a
  | Prim _ => []
  end.

Definition hands (g : Game) : list prim := concat (map (fun e => hand (snd e)) (players g)).

(** The cards on the table: every attacking card and every card that
    covers one. *)
Definition table_cards (g : Game) : list prim :=
  concat (map (fun e => match snd e with
                        | JNull => [JStr (fst e)]
                        | cover => [JStr (fst e); cover]
                        end) (tableTop g)).

Definition all_cards (g : Game) : list prim := deck g ++ hands g ++ table_cards g.

(** Each of the 52 cards is at exactly one place. *)
Definition conserved (g : Game) : Prop := all_cards g ≡ₚ map JStr generateCardDeck.

(** A value on the table that is [null] or a string of at least two code
    units; every card string has at least six. *)
Definition card_like (v : prim) : Prop :=
  v = JNull \/ exists s, v = JStr s /\ 2 <= String_length s.

(** ** Specifications of statements

    [runs P m Q]: started in a state that satisfies [P], the statement
    [m] completes normally and leaves a state that satisfies [Q]. *)
Definition runs {A} (P : Game -> Prop) (m : action A) (Q : Game -> Prop) : Prop :=
  forall g, P g -> exists a g', m g = (Normal a, g') /\ Q g'.

(** The state of a game under construction once the players exist: the
    ids are [K], every hand is an array, stock and hands together are the
    52 cards, and at least [m] cards are left in the stock. *)
Definition inv (K : list string) (m : nat) (g : Game) : Prop :=
  history g = [] /\ tableTop g = [] /\ Object_keys (players g) = K /\
  Forall (fun entry => exists a, player_deck (snd entry) = Arr a) (players g) /\
  deck g ++ hands g ≡ₚ map JStr generateCardDeck /\ m <= length (deck g).

(** Oracles used in the examples: every draw is 1/2 and the ids are
    [A], [B], [C], ... *)
Definition random_half : nat -> Q := fun _ => 1 # 2.
Definition nanoid_letters : nat -> string :=
  fun k => String (ascii_of_nat (65 + k)) "".

(** ** Auxiliary notions of the statements *)

(** The number of cards in the hand of the player [id]. *)
Definition hand_size (ps : object Player) (id : string) : nat :=
  match prop_get ps id with
  | Some p => length (hand p)
  | None => 0
  end.

(** What [a.reduce((item) => item !== card)] returns for a non-empty hand
    [a]: the only element, or a boolean. *)
Definition collapsed (card : string) (a : list prim) : prim :=
  match a with
  | [] => JUndefined
  | [x] => x
  | [x; _] => JBool (negb (strict_eq x (JStr card)))
  | _ => JBool true
  end.

(** [pieces.join(sep)] on an array of strings. *)
Fixpoint Array_join (pieces : list string) (sep : string) : string :=
  match pieces with
  | [] => ""
  | x :: rest =>
      match rest with
      | [] => x
      | _ => x +:+ sep +:+ Array_join rest sep
      end
  end.

(** ** States used in the examples *)

(** Two players, [A] attacking and [B] defending, with the given hands
    and table top; the stock is used up and spades are trumps. *)
Definition two_players (attacker defender : list string) (table : object prim) : Game :=
  mkGame []
    [("A", mkPlayer (Arr (map JStr attacker)) true false);
     ("B", mkPlayer (Arr (map JStr defender)) false true)]
    table [] (JStr "♤").

(** The game [new Game(id, 2)] builds with the example oracles. *)
Definition new_game_of_two : Game :=
  Eval vm_compute in
    match new_Game random_half nanoid_letters (Finite 2) with
    | Normal g => g
    | Throw _ => blank
    end.

(** One covered attack on the table; [A] holds three cards. *)
Definition covered_attack : Game :=
  two_players ["7 of ♣"; "8 of ♣"; "2 of ♣"] ["10 of ♢"; "3 of ♢"]
    [("7 of ♡", JStr "9 of ♡")].

(** The state [A]'s attack with the 7 of clubs leaves behind. *)
Definition after_attack : Game :=
  Eval vm_compute in snd (addCardToTableTop "A" "7 of ♣" covered_attack).




(** * Properties *)

(** ** Strings and [parseCard] *)

Lemma append_cons (c : ascii) (a b : string) : String c a +:+ b = String c (a +:+ b).
Proof. reflexivity. Qed.
Lemma append_empty_l (a : string) : "" +:+ a = a.
Proof. reflexivity. Qed.
Lemma append_empty_r (a : string) : a +:+ "" = a.
Proof. induction a as [|c a IH]; [done | by rewrite append_cons, IH]. Qed.
Lemma append_assoc (a b c : string) : (a +:+ b) +:+ c = a +:+ (b +:+ c).
Proof. induction a as [|x a IH]; [done | by rewrite !append_cons, IH]. Qed.

Lemma starts_with_spec (s sub : string) :
  starts_with s sub = true <-> exists post, s = sub +:+ post.
Proof.
  revert s. induction sub as [|a sub IH]; intros s; simpl.
  - split; [intros _; exists s; reflexivity | reflexivity].
  - destruct s as [|b s].
    + split; [discriminate | intros [post H]; discriminate].
    + destruct (Ascii.eqb_spec a b) as [->|Hne]; simpl.
      * rewrite IH. split; intros [post H]; exists post.
        -- by rewrite append_cons, H.
        -- rewrite append_cons in H. by injection H.
      * split; [discriminate | intros [post H]; rewrite append_cons in H; congruence].
Qed.

Lemma String_includes_spec (s sub : string) :
  String_includes s sub = true <-> exists pre post, s = pre +:+ sub +:+ post.
Proof.
  induction s as [|c s IH]; simpl.
  - rewrite orb_false_r, starts_with_spec. split.
    + intros [post H]. by exists "", post.
    + intros [pre [post H]]. destruct pre; [by exists post | discriminate].
  - rewrite orb_true_iff, starts_with_spec, IH. split.
    + intros [[post H] | [pre [post H]]].
      * by exists "", post.
      * exists (String c pre), post. by rewrite append_cons, H.
    + intros [pre [post H]]. destruct pre as [|d pre].
      * left. by exists post.
      * right. exists pre, post. rewrite append_cons in H. congruence.
Qed.

Lemma split_from_no_match (sep s cur : string) :
  String_includes s sep = false -> split_from sep 0 cur s = [cur +:+ s].
Proof.
  revert cur. induction s as [|c s IH]; intros cur H.
  - simpl. by rewrite append_empty_r.
  - cbn [String_includes] in H. apply orb_false_iff in H as [Hp Hs].
    cbn [split_from]. rewrite Hp, IH by done.
    by rewrite append_assoc.
Qed.

(** C8, as the code has it.  [parseCard] has no failure of its own: for
    a string that does not contain the separator [" of "] it returns the
    array whose only element is the string itself, so no second
    component is produced and nothing is thrown. *)
Theorem parseCard_without_separator (s : string) :
  String_includes s " of " = false -> parseCard (JStr s) = Normal [JStr s].
Proof.
  intros H. unfold parseCard, String_split. by rewrite split_from_no_match.
Qed.

Lemma parseCard_without_separator_witness :
  String_includes "7♡" " of " = false /\ parseCard (JStr "7♡") = Normal [JStr "7♡"].
Proof. split; [reflexivity | apply (parseCard_without_separator "7♡"); reflexivity]. Defined.

(** C8 as stated fails: the string ["7♡"] has no separator, yet
    [parseCard] returns normally. *)
Lemma parseCard_without_separator_returns :
  String_includes "7♡" " of " = false /\ forall e, parseCard (JStr "7♡") <> Throw e.
Proof. split; [reflexivity | intros e; vm_compute; discriminate]. Qed.

Lemma generateCardDeck_universe :
  length generateCardDeck = 52 /\ NoDup generateCardDeck.
Proof. split; [reflexivity | ]. apply (bool_decide_unpack _). vm_compute. reflexivity. Qed.

(** C9. For every label of [CardLabels] and every suit of [CardSuits],
    the string ["<label> of <suit>"] is a card of [generateCardDeck] and
    [parseCard] splits it back into exactly that label and that suit. *)
Theorem parseCard_round_trip (label suit : string) :
  label ∈ CardLabels -> suit ∈ CardSuits ->
  card_string label suit ∈ generateCardDeck /\
  parseCard (JStr (card_string label suit)) = Normal [JStr label; JStr suit].
Proof.
  intros Hl Hs.
  assert (Hall : Forall (fun l => Forall (fun s =>
            bool_decide (card_string l s ∈ generateCardDeck) = true /\
            parseCard (JStr (card_string l s)) = Normal [JStr l; JStr s]) CardSuits) CardLabels).
  { repeat constructor. }
  rewrite Forall_forall in Hall. specialize (Hall _ Hl).
  rewrite Forall_forall in Hall. destruct (Hall _ Hs) as [Hin Hp].
  split; [by apply bool_decide_eq_true in Hin | exact Hp].
Qed.

(** ** The shuffle permutes the deck *)

Lemma random_index_lt (r : Q) (n : nat) :
  (0 <= r)%Q -> (r < 1)%Q -> random_index r (S n) < S n.
Proof.
  intros H0 H1. unfold random_index.
  set (m := inject_Z (Z.of_nat (S n))).
  assert (Hm : (0 < m)%Q).
  { unfold m. replace 0%Q with (inject_Z 0) by reflexivity. rewrite <- Zlt_Qlt. lia. }
  assert (Hlt : (r * m < m)%Q).
  { apply Qlt_le_trans with (1 * m)%Q; [by apply Qmult_lt_compat_r |].
    rewrite Qmult_1_l. apply Qle_refl. }
  assert (Hfl : (Qfloor (r * m) < Z.of_nat (S n))%Z).
  { apply Z.lt_nge. intros Hge. rewrite Zle_Qle in Hge.
    apply (Qlt_irrefl m). eapply Qle_lt_trans; [exact Hge|].
    eapply Qle_lt_trans; [apply Qfloor_le | exact Hlt]. }
  lia.
Qed.

Lemma Array_get_lookup (a : list prim) (i : nat) (x : prim) :
  a !! i = Some x -> Array_get a i = x.
Proof. unfold Array_get. by intros ->. Qed.

Lemma insert_head_Permutation (l : list prim) (j : nat) (x y : prim) :
  l !! j = Some y -> y :: <[j := x]> l ≡ₚ x :: l.
Proof.
  revert j. induction l as [|b l IH]; intros [|j] H; simplify_eq/=.
  - apply perm_swap.
  - rewrite perm_swap. rewrite (IH _ H). apply perm_swap.
Qed.

Lemma swap_Permutation (l : list prim) (i j : nat) (x y : prim) :
  l !! i = Some x -> l !! j = Some y -> <[j := x]> (<[i := y]> l) ≡ₚ l.
Proof.
  revert i j. induction l as [|a l IH]; intros [|i] [|j] Hi Hj; simplify_eq/=.
  - done.
  - by apply insert_head_Permutation.
  - by apply insert_head_Permutation.
  - f_equiv. by apply IH.
Qed.

Lemma Array_set_in_range (a : list prim) (i : nat) (x : prim) :
  i < length a -> Array_set a i x = <[i := x]> a.
Proof. intros H. unfold Array_set. by rewrite decide_True. Qed.

Lemma swap_step_Permutation (deck : list prim) (i j : nat) :
  i < length deck -> j < length deck ->
  Array_set (Array_set deck i (Array_get deck j)) j (Array_get deck i) ≡ₚ deck.
Proof.
  intros Hi Hj.
  destruct (lookup_lt_is_Some_2 deck i Hi) as [x Hx].
  destruct (lookup_lt_is_Some_2 deck j Hj) as [y Hy].
  rewrite (Array_get_lookup _ _ _ Hx), (Array_get_lookup _ _ _ Hy).
  rewrite (Array_set_in_range deck) by done.
  rewrite Array_set_in_range by (by rewrite length_insert).
  by apply swap_Permutation.
Qed.

Lemma shuffle_loop_Permutation (random : nat -> Q) :
  (forall k, (0 <= random k)%Q /\ (random k < 1)%Q) ->
  forall currentIndex calls deck,
    currentIndex <= length deck ->
    shuffle_loop random calls currentIndex deck ≡ₚ deck.
Proof.
  intros Hr. induction currentIndex as [|n IH]; intros calls deck Hlen; [done|].
  cbn [shuffle_loop].
  destruct (Hr calls) as [H0 H1].
  pose proof (random_index_lt _ n H0 H1) as Hri.
  assert (Hswap := swap_step_Permutation deck n (random_index (random calls) (S n))
                     ltac:(lia) ltac:(lia)).
  rewrite IH; [exact Hswap|].
  rewrite (Permutation_length Hswap). lia.
Qed.

Lemma shuffleDeck_permutes (random : nat -> Q) (deck : list prim) :
  (forall k, (0 <= random k)%Q /\ (random k < 1)%Q) ->
  shuffleDeck random deck ≡ₚ deck.
Proof. intros Hr. by apply shuffle_loop_Permutation. Qed.

(** C10. Whatever indices are drawn (every draw of [Math.random()] lies
    in the interval from 0 to 1, 1 excluded), [shuffleDeck] returns a
    permutation of its argument: the same elements with the same
    multiplicities, hence also the same length. *)
Theorem shuffleDeck_Permutation (random : nat -> Q) (deck : list prim) :
  (forall k, (0 <= random k)%Q /\ (random k < 1)%Q) ->
  shuffleDeck random deck ≡ₚ deck /\ length (shuffleDeck random deck) = length deck.
Proof.
  intros Hr. pose proof (shuffleDeck_permutes random deck Hr) as H.
  split; [exact H | by rewrite H].
Qed.

Lemma random_half_range k : (0 <= random_half k)%Q /\ (random_half k < 1)%Q.
Proof. split; [discriminate | reflexivity]. Qed.

Lemma shuffleDeck_Permutation_witness :
  (forall k, (0 <= random_half k)%Q /\ (random_half k < 1)%Q) /\
  shuffleDeck random_half [JStr "a"; JStr "b"; JStr "c"] ≡ₚ [JStr "a"; JStr "b"; JStr "c"] /\
  length (shuffleDeck random_half [JStr "a"; JStr "b"; JStr "c"]) = 3.
Proof.
  split; [exact random_half_range | ].
  apply (shuffleDeck_Permutation random_half [JStr "a"; JStr "b"; JStr "c"]).
  exact random_half_range.
Defined.

(** ** [addCardToTableTop] *)

Ltac run_action :=
  unfold mbind, action_bind, mret, action_ret, this, throw, eval, assign in *.

Ltac step_in H :=
  match type of H with
  | context [if ?b then _ else _] => destruct b eqn:?
  | context [match ?x with _ => _ end] => destruct x eqn:?
  end.

Lemma reduce_of_Throw callback v e : reduce_of callback v = Throw e -> e = TypeError.
Proof. destruct v as [p|[|x a]]; simpl; congruence. Qed.

Lemma member_of_Own (ps : object Player) (k : string) (p : Player) :
  member_of ps k = Some (Own p) <-> prop_get ps k = Some p.
Proof.
  unfold member_of. destruct (prop_get ps k) as [q|].
  - split; congruence.
  - destruct (bool_decide _); split; congruence.
Qed.

Lemma member_of_None (ps : object Player) (k : string) :
  member_of ps k = None <-> prop_get ps k = None /\ k ∉ Object_prototype.
Proof.
  unfold member_of. destruct (prop_get ps k) as [q|].
  - split; [done | by intros [? _]].
  - destruct (decide (k ∈ Object_prototype)) as [Hin|Hout].
    + rewrite bool_decide_eq_true_2 by done. split; [done | by intros [_ ?]].
    + by rewrite bool_decide_eq_false_2.
Qed.

(** a value found under [from] whose [deck] has a length is a player *)
Lemma member_with_deck (ps : object Player) (k : string) (m : member) (n : prim) :
  member_of ps k = Some m -> length_of (deck_of m) = Normal n ->
  exists p, m = Own p /\ prop_get ps k = Some p.
Proof.
  intros Hm Hn. destruct m as [p|]; [|discriminate Hn].
  exists p. split; [done|]. by apply member_of_Own.
Qed.

Ltac own_member :=
  match goal with
  | Hm : member_of _ _ = Some ?m, Hn : length_of (deck_of ?m) = Normal _ |- _ =>
      let p := fresh "player" in
      let Hp := fresh "Hplayer" in
      destruct (member_with_deck _ _ _ _ Hm Hn) as (p & -> & Hp);
      cbn [deck_of set_deck] in *
  end.

(** C7. Whenever [addCardToTableTop] throws one of the errors of the
    engine ([new Error(message)]), the game object is left exactly as it
    was before the call: hands, table top, stock and history. *)
Theorem addCardToTableTop_atomic (from card : string) (g g' : Game) (message : string) :
  addCardToTableTop from card g = (Throw (Error message), g') -> g' = g.
Proof.
  unfold addCardToTableTop, getTableTopDeck. run_action.
  intros H.
  repeat (step_in H; try (injection H as _ <-; reflexivity); try discriminate H).
  match goal with Hr : reduce_of _ _ = Throw _ |- _ => apply reduce_of_Throw in Hr as -> end.
  discriminate H.
Qed.

Lemma Array_includes_nonempty a x : Array_includes a x = true -> a <> [].
Proof. by destruct a. Qed.

Lemma addCardToTableTop_atomic_arrays (from card : string) (g g' : Game) (e : exn) :
  (forall p, prop_get (players g) from = Some p -> exists a, player_deck p = Arr a) ->
  addCardToTableTop from card g = (Throw e, g') -> g' = g.
Proof.
  intros Harr. unfold addCardToTableTop, getTableTopDeck. run_action.
  intros H.
  repeat (step_in H; try (injection H as _ <-; reflexivity); try discriminate H).
  own_member. destruct (Harr _ Hplayer) as [hand Ha].
  rewrite Ha in *. destruct hand; simpl in *; simplify_eq.
Qed.

Lemma addCardToTableTop_success (from card : string) (g g' : Game) :
  addCardToTableTop from card g = (Normal tt, g') ->
  exists player rest,
    prop_get (players g) from = Some player /\
    g' = with_players
           (prop_set (players g) from (with_player_deck (Prim rest) player))
           (with_tableTop (prop_set (tableTop g) card JNull) g).
Proof.
  unfold addCardToTableTop, getTableTopDeck. run_action.
  intros H.
  repeat (step_in H; try discriminate H).
  own_member. injection H as <-. eauto.
Qed.

Lemma addCardToTableTop_empty_table (from card : string) (g : Game) :
  tableTop g = [] ->
  addCardToTableTop from card g = (Throw UnknownPlayer, g) \/
  addCardToTableTop from card g = (Throw TypeError, g).
Proof.
  intros Ht. unfold addCardToTableTop. run_action. rewrite Ht. simpl.
  destruct (member_of (players g) from); auto.
Qed.


Lemma Array_reduce_Throw callback a e : Array_reduce callback a = Throw e -> e = TypeError.
Proof. destruct a; simpl; congruence. Qed.
Lemma length_of_Throw v e : length_of v = Throw e -> e = TypeError.
Proof. destruct v as [[]|]; simpl; congruence. Qed.
Lemma includes_of_Throw v card e : includes_of v card = Throw e -> e = TypeError.
Proof. destruct v as [[]|]; simpl; congruence. Qed.
Lemma parseCard_Throw item e : parseCard item = Throw e -> e = TypeError.
Proof. destruct item; simpl; congruence. Qed.
Lemma map_callback_Throw {A B} (f : A -> completion B) l e :
  (forall x e', f x = Throw e' -> e' = TypeError) ->
  map_callback f l = Throw e -> e = TypeError.
Proof.
  intros Hf. induction l as [|x l IH]; simpl; [done|].
  unfold mbind, completion_bind.
  destruct (f x) eqn:Hx; [|intros [= <-]; eauto].
  destruct (map_callback f l); [done|]. intros [= <-]. by apply IH.
Qed.
Lemma labels_Throw l e :
  map_callback (fun item => parsed ← parseCard item; Normal (Array_get parsed 0)) l = Throw e ->
  e = TypeError.
Proof.
  apply map_callback_Throw. intros x e'. unfold mbind, completion_bind.
  destruct (parseCard x) eqn:Hx; [done|]. intros [= <-]. by eapply parseCard_Throw.
Qed.

Ltac type_errors :=
  repeat match goal with
    | H : Array_reduce _ _ = Throw _ |- _ => apply Array_reduce_Throw in H as ->
    | H : reduce_of _ _ = Throw _ |- _ => apply reduce_of_Throw in H as ->
    | H : length_of _ = Throw _ |- _ => apply length_of_Throw in H as ->
    | H : includes_of _ _ = Throw _ |- _ => apply includes_of_Throw in H as ->
    | H : parseCard _ = Throw _ |- _ => apply parseCard_Throw in H as ->
    | H : map_callback _ _ = Throw _ |- _ => apply labels_Throw in H as ->
    end.

Ltac step_goal :=
  match goal with
  | |- context [if ?b then _ else _] => destruct b eqn:?
  | |- context [match ?x with _ => _ end] => destruct x eqn:?
  end.

(** the callback of the first reduce yields booleans *)
Lemma fold_left_JBool (f : prim -> bool) (rest : list prim) (x : prim) :
  rest <> [] -> exists b, fold_left (fun item _ => JBool (f item)) rest x = JBool b.
Proof.
  revert x. induction rest as [|y rest IH]; intros x Hne; [done|].
  destruct rest as [|z rest]; [by eexists|].
  apply IH. done.
Qed.

Lemma num_gt_small (k n : nat) :
  2 <= k -> num_gt (num_add (num_sub (of_nat 1) (of_nat k)) (Finite 1)) (of_nat n) = false.
Proof.
  intros Hk. unfold num_gt, num_lt, num_add, num_sub, of_nat, Qlt_bool.
  apply negb_false_iff, Qle_bool_iff.
  apply Qle_trans with (inject_Z 0).
  - unfold Qle, Qplus, Qminus, Qopp, Qplus, inject_Z. simpl. lia.
  - rewrite <- Zle_Qle. lia.
Qed.

Lemma addCardToTableTop_never_InsufficientDefenderCards (from card : string) (g : Game) :
  Forall (fun entry => card_like (snd entry)) (tableTop g) ->
  fst (addCardToTableTop from card g) <> Throw InsufficientDefenderCards.
Proof.
  intros Hcards. unfold addCardToTableTop, getTableTopDeck. run_action.
  destruct (negb _); [simpl; discriminate|].
  destruct (member_of (players g) from) as [player|]; [|simpl; discriminate].
  destruct (tableTop g) as [|[k1 v1] [|[k2 v2] table]] eqn:Ht.
  - simpl. discriminate.
  - apply Forall_cons in Hcards as [Hv _]. simpl in Hv.
    destruct Hv as [->|(s & -> & Hs)]; [simpl; discriminate|].
    cbn [Object_values map snd Array_reduce fold_left length_of].
    destruct (length_of (deck_of player)) as [handLength|] eqn:Hl;
      [|type_errors; simpl; discriminate].
    assert (Hgt : num_gt (num_add (num_sub (of_nat 1) (of_nat (String_length s))) (Finite 1))
                    (ToNumber handLength) = false).
    { destruct (deck_of player) as [[| |b|n|t]|a]; simplify_eq/=;
        try apply num_gt_small; try done. }
    cbn [Object_keys map length ToNumber]. rewrite Hgt.
    repeat (step_goal; type_errors; simpl; try discriminate).
  - cbn [Object_values map snd Array_reduce].
    destruct (fold_left_JBool (fun item => negb (strict_eq item JNull))
                (v2 :: map snd table) v1) as [b Hb]; [done|].
    cbn [map snd] in Hb. rewrite Hb. cbn [length_of].
    destruct (length_of (deck_of player)) as [handLength|] eqn:Hl;
      [|type_errors; simpl; discriminate].
    cbn [ToNumber num_sub num_add num_gt num_lt].
    destruct (ToNumber handLength);
      repeat (step_goal; type_errors; simpl; try discriminate).
Qed.

(** ** Construction *)

(** objects *)
Lemma prop_get_key {A} (o : object A) (k : string) :
  k ∈ Object_keys o -> exists v, prop_get o k = Some v.
Proof.
  induction o as [|[k' v'] o IH]; simpl; [by intros ?%elem_of_nil|].
  destruct (String.eqb_spec k' k) as [->|Hne]; [eauto|].
  intros [?|?]%elem_of_cons; [congruence|eauto].
Qed.

Lemma prop_set_keys_present {A} (o : object A) (k : string) (v v' : A) :
  prop_get o k = Some v -> Object_keys (prop_set o k v') = Object_keys o.
Proof.
  induction o as [|[k0 v0] o IH]; simpl; [done|].
  destruct (String.eqb k0 k); simpl; [done|]. intros H. by rewrite IH.
Qed.

Lemma prop_set_keys_absent {A} (o : object A) (k : string) (v : A) :
  prop_get o k = None -> Object_keys (prop_set o k v) = Object_keys o ++ [k].
Proof.
  induction o as [|[k0 v0] o IH]; simpl; [done|].
  destruct (String.eqb k0 k); simpl; [done|]. intros H. by rewrite IH.
Qed.

Lemma prop_get_None {A} (o : object A) (k : string) :
  prop_get o k = None <-> k ∉ Object_keys o.
Proof.
  induction o as [|[k0 v0] o IH]; simpl.
  - split; [intros _; apply not_elem_of_nil | done].
  - rewrite not_elem_of_cons. destruct (String.eqb_spec k0 k) as [->|Hne].
    + split; [done | intros [? _]; done].
    + rewrite IH. split; [intros ?; split; congruence | by intros [_ ?]].
Qed.

Lemma prop_set_Forall {A} (P : string * A -> Prop) (o : object A) (k : string) (v : A) :
  Forall P o -> P (k, v) -> Forall P (prop_set o k v).
Proof.
  intros Ho Hv. induction Ho as [|[k0 v0] o H0 Ho IH]; simpl.
  - by constructor.
  - destruct (String.eqb_spec k0 k) as [->|Hne]; by constructor.
Qed.

Lemma hands_push (ps : object Player) (id : string) (p : Player) (a : list prim) (x : prim) :
  prop_get ps id = Some p -> player_deck p = Arr a ->
  concat (map (fun e => hand (snd e))
            (prop_set ps id (with_player_deck (Arr (Array_push a x)) p)))
  ≡ₚ x :: concat (map (fun e => hand (snd e)) ps).
Proof.
  intros Hget Ha. induction ps as [|[k0 p0] ps IH]; simpl in *; [done|].
  destruct (String.eqb k0 id); simpl.
  - simplify_eq. unfold hand at 1 3. simpl. rewrite Ha. unfold Array_push.
    rewrite <- app_assoc. simpl.
    by rewrite <- Permutation_middle.
  - rewrite IH by done. by rewrite <- Permutation_middle.
Qed.

(** triples *)
Lemma runs_bind {A B} P Q R (m : action A) (k : A -> action B) :
  runs P m Q -> (forall a, runs Q (k a) R) -> runs P (m ≫= k) R.
Proof.
  intros Hm Hk g HP. destruct (Hm g HP) as (a & g1 & Hrun & HQ).
  destruct (Hk a g1 HQ) as (b & g2 & Hrun2 & HR).
  exists b, g2. split; [|done]. unfold mbind, action_bind. by rewrite Hrun.
Qed.

Lemma runs_weaken {A} (P P' Q Q' : Game -> Prop) (m : action A) :
  runs P m Q -> (forall g, P' g -> P g) -> (forall g, Q g -> Q' g) -> runs P' m Q'.
Proof.
  intros Hm HP HQ g Hg. destruct (Hm g (HP g Hg)) as (a & g' & ? & ?). eauto 6.
Qed.

Lemma inv_weaken K m m' g : m' <= m -> inv K m g -> inv K m' g.
Proof. unfold inv. intros ? (?&?&?&?&?&?). repeat split; auto; lia. Qed.

Lemma deal_card_runs K m id :
  id ∈ K -> runs (inv K (S m)) (deal_card id) (inv K m).
Proof.
  intros Hid g (Hh & Ht & HK & Harr & Hperm & Hlen).
  unfold deal_card. run_action.
  destruct (prop_get_key (players g) id) as [p Hp]; [by rewrite HK|].
  rewrite Hp.
  assert (Hp' : exists a, player_deck p = Arr a).
  { clear -Hp Harr. induction Harr as [|[k0 p0] ps H0 _ IH]; simpl in *; [done|].
    destruct (String.eqb k0 id); [by simplify_eq|auto]. }
  destruct Hp' as [a Ha]. rewrite Ha.
  destruct (deck g) as [|x stock] eqn:Hd; [simpl in Hlen; lia|].
  simpl. eexists tt, _. split; [reflexivity|].
  unfold inv. simpl. repeat split; auto.
  - by erewrite prop_set_keys_present.
  - apply prop_set_Forall; [done|]. simpl. eauto.
  - unfold hands. simpl. rewrite hands_push by done.
    rewrite <- Permutation_middle. exact Hperm.
  - simpl in Hlen. lia.
Qed.

Lemma deal_round_runs K l m :
  l ⊆ K -> runs (inv K (length l + m)) (for_each l deal_card) (inv K m).
Proof.
  induction l as [|id l IH]; intros Hsub.
  - intros g Hg. by exists tt, g.
  - cbn [for_each length].
    eapply runs_bind; [apply (deal_card_runs K (length l + m)), Hsub; by left|].
    intros _. apply IH. intros x Hx. apply Hsub. by right.
Qed.

Lemma deal_all_runs K rounds start m :
  runs (inv K (rounds * length K + m))
    (for_each (seq start rounds)
       (fun index => g ← this; for_each (Object_keys (players g)) deal_card))
    (inv K m).
Proof.
  revert start. induction rounds as [|r IH]; intros start.
  - intros g Hg. by exists tt, g.
  - cbn [for_each seq]. eapply runs_bind; [|intros _; apply IH].
    intros g Hg. unfold mbind at 1, action_bind at 1, this.
    assert (HK : Object_keys (players g) = K) by apply Hg.
    rewrite HK. apply (deal_round_runs K K (r * length K + m)); [done|].
    eapply inv_weaken; [|exact Hg]. simpl. lia.
Qed.

Arguments shuffleDeck : simpl never.
Arguments generateCardDeck : simpl never.

Lemma for_each_assign {A} (l : list A) (f : A -> Game -> Game) (g : Game) :
  for_each l (fun x => assign (f x)) g = (Normal tt, fold_left (fun g' x => f x g') l g).
Proof.
  revert g. induction l as [|x l IH]; intros g; [done|].
  cbn [for_each fold_left]. unfold mbind at 1, action_bind at 1, assign at 1. apply IH.
Qed.

Section Construction.
Variable random : nat -> Q.
Variable nanoid : nat -> string.
Hypothesis random_range : forall k, (0 <= random k)%Q /\ (random k < 1)%Q.

Local Abbreviation add_player := (add_player nanoid).
Local Abbreviation shuffled := (shuffled random).
Local Abbreviation seated := (seated random nanoid).

Lemma create_players_fold (l : list nat) (g : Game) :
  fold_left (fun g' index =>
               with_players (prop_set (players g') (nanoid index) new_player) g') l g
  = with_players (fold_left add_player l (players g)) g.
Proof.
  revert g. induction l as [|i l IH]; intros g; [by destruct g|].
  cbn [fold_left]. rewrite IH. by destruct g.
Qed.

Lemma add_players_empty_hands (l : list nat) (ps : object Player) :
  Forall (fun entry => player_deck (snd entry) = Arr []) ps ->
  Forall (fun entry => player_deck (snd entry) = Arr []) (fold_left add_player l ps).
Proof.
  revert ps. induction l as [|i l IH]; intros ps Hps; [done|].
  cbn [fold_left]. apply IH. by apply prop_set_Forall.
Qed.

Lemma prop_set_length {A} (o : object A) (k : string) (v : A) :
  length (prop_set o k v) <= S (length o).
Proof.
  induction o as [|[k0 v0] o IH]; simpl; [lia|].
  destruct (String.eqb k0 k); simpl; lia.
Qed.

Lemma add_players_length (l : list nat) (ps : object Player) :
  length (fold_left add_player l ps) <= length ps + length l.
Proof.
  revert ps. induction l as [|i l IH]; intros ps; simpl; [lia|].
  etransitivity; [apply IH|]. pose proof (prop_set_length ps (nanoid i) new_player).
  unfold add_player. lia.
Qed.

Lemma add_players_keys (l : list nat) (ps : object Player) :
  NoDup (Object_keys ps ++ map nanoid l) ->
  Object_keys (fold_left add_player l ps) = Object_keys ps ++ map nanoid l.
Proof.
  revert ps. induction l as [|i l IH]; intros ps Hnd; simpl.
  - by rewrite app_nil_r.
  - assert (Hfresh : prop_get ps (nanoid i) = None).
    { apply prop_get_None. apply NoDup_app in Hnd as (_ & Hd & _).
      intros Hin. apply (Hd _ Hin). by left. }
    assert (Hk : Object_keys (add_player ps i) = Object_keys ps ++ [nanoid i])
      by (by apply prop_set_keys_absent).
    rewrite IH; rewrite Hk, <- app_assoc; [done|]. exact Hnd.
Qed.

Lemma empty_hands (ps : object Player) :
  Forall (fun entry => player_deck (snd entry) = Arr []) ps ->
  concat (map (fun e => hand (snd e)) ps) = [].
Proof.
  induction 1 as [|[k p] ps Hp _ IH]; simpl; [done|].
  unfold hand at 1. simpl in *. by rewrite Hp, IH.
Qed.

Lemma seated_inv (n : nat) :
  inv (Object_keys (players (seated n))) 52 (seated n).
Proof.
  pose proof (shuffleDeck_permutes random (map JStr generateCardDeck) random_range)
    as Hperm.
  assert (Hlen := Permutation_length Hperm).
  assert (He := add_players_empty_hands (seq 0 n) [] ltac:(constructor)).
  unfold inv. split; [reflexivity|]. split; [reflexivity|]. split; [reflexivity|].
  split; [|split].
  - eapply Forall_impl; [exact He|]. intros entry ->. eauto.
  - unfold hands, seated. cbn [players with_players deck shuffled].
    rewrite empty_hands by exact He. rewrite app_nil_r. exact Hperm.
  - unfold seated. cbn [deck with_players shuffled].
    rewrite Hlen, length_map. rewrite (proj1 generateCardDeck_universe). done.
Qed.

Lemma seated_count (n : nat) : length (Object_keys (players (seated n))) <= n.
Proof.
  unfold Object_keys. rewrite length_map. unfold seated.
  cbn [players with_players].
  pose proof (add_players_length (seq 0 n) []) as H. rewrite length_seq in H. exact H.
Qed.

Lemma deal_and_cut_runs K m :
  runs (inv K (DECK_SIZE * length K + S m)) deal_and_cut (inv K (S m)).
Proof.
  unfold deal_and_cut.
  eapply runs_bind; [apply deal_all_runs|]. intros _ g Hg.
  destruct Hg as (Hh & Ht & HK & Harr & Hperm & Hlen).
  destruct (deck g) as [|x stock] eqn:Hd; [simpl in Hlen; lia|].
  assert (Hx : x ∈ map JStr generateCardDeck).
  { rewrite <- Hperm. by left. }
  apply list_elem_of_fmap in Hx as (s & -> & _).
  run_action. rewrite Hd. cbn [Array_get lookup list_lookup default parseCard].
  eexists tt, _. split; [reflexivity|].
  unfold inv, hands.
  cbn [history tableTop players deck with_deck with_trumpSuite].
  rewrite Hd. cbn [Array_shift fst snd]. unfold Array_push.
  repeat split; auto.
  - rewrite <- Hperm, <- app_assoc. symmetry. apply Permutation_middle.
  - rewrite length_app. simpl in *. lia.
Qed.

Lemma assign_bind {B} (f : Game -> Game) (k : unit -> action B) (g : Game) :
  (assign f ≫= k) g = k tt (f g).
Proof. reflexivity. Qed.

Lemma constructor_from_blank (players_ : number) :
  constructor random nanoid players_ blank =
  if negb (Number_isInteger players_) && num_lt players_ (Finite 0)
  then (Throw NotPositiveInteger, shuffled)
  else if num_gt players_ (Finite 8)
  then (Throw MoreThanEight, shuffled)
  else deal_and_cut (seated (iterations players_)).
Proof.
  unfold constructor.
  rewrite !assign_bind.
  cbn [with_history with_players with_tableTop with_deck
       history players tableTop deck trumpSuite blank].
  fold shuffled.
  unfold mbind at 1, action_bind at 1.
  destruct (negb (Number_isInteger players_) && num_lt players_ (Finite 0));
    [reflexivity|].
  destruct (num_gt players_ (Finite 8)); [reflexivity|].
  rewrite for_each_assign, create_players_fold. reflexivity.
Qed.

Lemma iterations_le_8 (players_ : number) :
  num_gt players_ (Finite 8) = false -> iterations players_ <= 8.
Proof.
  destruct players_ as [|q]; simpl; [lia|].
  unfold num_gt, num_lt, Qlt_bool. intros H.
  apply negb_false_iff, Qle_bool_iff in H.
  apply Qceiling_resp_le in H. change 8%Q with (inject_Z 8) in H.
  rewrite Qceiling_Z in H. lia.
Qed.

Lemma new_Game_accepted (players_ : number) :
  negb (Number_isInteger players_) && num_lt players_ (Finite 0) = false ->
  num_gt players_ (Finite 8) = false ->
  exists g, new_Game random nanoid players_ = Normal g /\
            inv (Object_keys (players (seated (iterations players_)))) 4 g.
Proof.
  intros Hint Hgt. unfold new_Game. rewrite constructor_from_blank, Hint, Hgt.
  pose proof (iterations_le_8 _ Hgt) as H8.
  pose proof (seated_count (iterations players_)) as Hcount.
  destruct (deal_and_cut_runs (Object_keys (players (seated (iterations players_)))) 3
              (seated (iterations players_))) as (a & g & Hrun & Hinv).
  { eapply inv_weaken; [|apply seated_inv]. unfold DECK_SIZE. lia. }
  exists g. by rewrite Hrun.
Qed.

Lemma new_Game_Normal (players_ : number) (g : Game) :
  new_Game random nanoid players_ = Normal g ->
  inv (Object_keys (players (seated (iterations players_)))) 4 g.
Proof.
  intros Hnew.
  destruct (negb (Number_isInteger players_) && num_lt players_ (Finite 0)) eqn:Hint.
  { unfold new_Game in Hnew. rewrite constructor_from_blank, Hint in Hnew. done. }
  destruct (num_gt players_ (Finite 8)) eqn:Hgt.
  { unfold new_Game in Hnew. rewrite constructor_from_blank, Hint, Hgt in Hnew. done. }
  destruct (new_Game_accepted players_ Hint Hgt) as (g' & Hg' & Hinv). congruence.
Qed.
End Construction.

Lemma inv_conserved K m g : inv K m g -> conserved g.
Proof.
  intros (_ & Ht & _ & _ & Hperm & _). unfold conserved, all_cards, table_cards.
  rewrite Ht. cbn [map concat]. by rewrite app_nil_r.
Qed.

Lemma after_empty_table (c : call) (g : Game) : tableTop g = [] -> after c g = g.
Proof.
  intros Ht. destruct c; try reflexivity.
  cbn [after]. by destruct (addCardToTableTop_empty_table from card g Ht) as [-> | ->].
Qed.

Lemma reachable_empty_table (g0 g : Game) :
  tableTop g0 = [] -> reachable g0 g -> g = g0.
Proof.
  intros Ht. induction 1 as [|g c _ ->]; [done|]. by apply after_empty_table.
Qed.

(** ** The claims about the game object *)

Lemma labels_of_uncovered (l : list prim) :
  JNull ∈ l ->
  map_callback (fun item => parsed ← parseCard item; Normal (Array_get parsed 0)) l
  = Throw TypeError.
Proof.
  intros Hin.
  destruct (map_callback _ l) as [labels|e] eqn:H; [|by apply labels_Throw in H as ->].
  exfalso. revert labels H. induction l as [|x l IH]; intros labels H.
  - by apply elem_of_nil in Hin.
  - apply elem_of_cons in Hin as [<-|Hin]; [discriminate H|].
    cbn [map_callback] in H. unfold mbind, completion_bind in H.
    destruct (parseCard x); [|discriminate].
    destruct (map_callback _ l) eqn:Hl; [|discriminate]. by eapply IH.
Qed.

Lemma uncovered_in_table_deck (table : object prim) (k : string) :
  (k, JNull) ∈ table ->
  JNull ∈ concat (map (fun entry : string * prim => [JStr entry.1; entry.2]) table).
Proof.
  induction table as [|[k0 v0] table IH]; intros Hin.
  - by apply elem_of_nil in Hin.
  - cbn [map concat fst snd app]. apply elem_of_cons in Hin as [[= <- <-]|Hin].
    + right. left.
    + right. right. by apply IH.
Qed.

Lemma addCardToTableTop_uncovered (from card k : string) (g : Game) :
  (k, JNull) ∈ tableTop g ->
  snd (addCardToTableTop from card g) = g /\
  exists e, fst (addCardToTableTop from card g) = Throw e /\ e <> RankNotOnTable.
Proof.
  intros Hk. apply uncovered_in_table_deck, labels_of_uncovered in Hk.
  unfold addCardToTableTop, getTableTopDeck. run_action.
  repeat (step_goal; type_errors; cbn [fst snd]; try congruence;
          try (split; [reflexivity | eexists; split; [reflexivity | discriminate]])).
Qed.

Lemma addCardToTableTop_empty_table_fails (from card : string) (g : Game) :
  tableTop g = [] -> forall g', addCardToTableTop from card g <> (Normal tt, g').
Proof.
  intros Ht g'. by destruct (addCardToTableTop_empty_table from card g Ht) as [-> | ->].
Qed.

Lemma conserved_count (g : Game) :
  conserved g -> length (deck g) + length (hands g) + length (table_cards g) = 52.
Proof.
  intros H. apply Permutation_length in H. unfold all_cards in H.
  rewrite !length_app, length_map, (proj1 generateCardDeck_universe) in H. lia.
Qed.

(** The game the constructor returns holds each of the 52 cards exactly
    once, in the stock or in a hand. *)
Lemma new_Game_conserved (random : nat -> Q) (nanoid : nat -> string)
    (players_ : number) (g : Game) :
  (forall k, (0 <= random k)%Q /\ (random k < 1)%Q) ->
  new_Game random nanoid players_ = Normal g -> conserved g.
Proof.
  intros Hrandom Hnew. eapply inv_conserved.
  by apply (new_Game_Normal random nanoid Hrandom players_).
Qed.



(** C2 at a state where the call succeeds: one covered attack on the
    table, the attacker holds three cards and plays one of them.  The
    card is entered on the table top with the value [null], but the hand
    is replaced by the boolean [true] (the result of [reduce]) instead of
    the two remaining cards, and the history is not extended. *)
Theorem addCardToTableTop_clobbers_hand :
  let g := two_players ["7 of ♣"; "8 of ♣"; "2 of ♣"] ["10 of ♢"; "3 of ♢"]
             [("7 of ♡", JStr "9 of ♡")] in
  let r := addCardToTableTop "A" "7 of ♣" g in
  fst r = Normal tt /\
  tableTop (snd r) = [("7 of ♡", JStr "9 of ♡"); ("7 of ♣", JNull)] /\
  player_deck <$> prop_get (players (snd r)) "A" = Some (Prim (JBool true)) /\
  history (snd r) = history g.
Proof. vm_compute. repeat split. Qed.

(** C3 at the states of the scenario (the defender holds two cards).
    With one uncovered attack on the table a second attack raises a
    [TypeError] instead of succeeding; with two uncovered attacks a third
    one raises a [TypeError] instead of the capacity error; and with a
    defender without cards and a covered attack on the table the call
    succeeds, because the comparison reads the hand of the attacker. *)
Theorem capacity_check_scenario :
  let defender := ["9 of ♡"; "10 of ♢"] in
  fst (addCardToTableTop "A" "7 of ♣"
         (two_players ["7 of ♣"; "7 of ♢"; "8 of ♣"] defender [("7 of ♡", JNull)]))
  = Throw TypeError /\
  fst (addCardToTableTop "A" "7 of ♢"
         (two_players ["7 of ♢"; "8 of ♣"] defender
            [("7 of ♡", JNull); ("7 of ♣", JNull)]))
  = Throw TypeError /\
  fst (addCardToTableTop "A" "7 of ♣"
         (two_players ["7 of ♣"; "7 of ♢"; "8 of ♣"] [] [("7 of ♡", JStr "9 of ♡")]))
  = Normal tt.
Proof. vm_compute. repeat split. Qed.

(** C4 at a table with two uncovered attacks of ranks 7 and 8: an
    attack with a 9 that the attacker holds raises a [TypeError] instead
    of the rank error.  On an empty table the same attack raises a
    [TypeError] as well. *)
Theorem rank_check_uncovered_table :
  fst (addCardToTableTop "A" "9 of ♣"
         (two_players ["9 of ♣"; "8 of ♣"; "2 of ♣"] ["10 of ♢"; "3 of ♢"; "Jack of ♢"]
            [("7 of ♡", JNull); ("8 of ♡", JNull)]))
  = Throw TypeError /\
  fst (addCardToTableTop "A" "9 of ♣"
         (two_players ["9 of ♣"; "8 of ♣"; "2 of ♣"] ["10 of ♢"; "3 of ♢"; "Jack of ♢"] []))
  = Throw TypeError.
Proof. vm_compute. repeat split. Qed.

(** C5 as stated fails: covering the 7 of hearts with the 6 of hearts
    is not rejected. *)
Lemma coverCardOnTableTop_accepts_lower_card :
  let g := two_players ["8 of ♣"] ["6 of ♡"; "9 of ♡"] [("7 of ♡", JNull)] in
  coverCardOnTableTop "7 of ♡" "6 of ♡" g = (Normal tt, g) /\
  forall e, fst (coverCardOnTableTop "7 of ♡" "6 of ♡" g) <> Throw e.
Proof. split; [reflexivity | discriminate]. Qed.

(** C5, as the code has it.  [coverCardOnTableTop] has an empty body:
    for every attacked card, covering card and state it returns normally
    and changes nothing; no legality check is made. *)
Theorem coverCardOnTableTop_does_nothing (card coveringCard : string) (g : Game) :
  coverCardOnTableTop card coveringCard g = (Normal tt, g).
Proof. reflexivity. Qed.

(** C6 at the counts 0 and -3: the constructor does not throw and
    creates no player. *)
Theorem new_Game_accepts_nonpositive_count :
  (exists g, new_Game random_half nanoid_letters (Finite 0) = Normal g /\ players g = []) /\
  (exists g, new_Game random_half nanoid_letters (Finite (-3)) = Normal g /\ players g = []).
Proof. split; eexists; (split; [vm_compute; reflexivity | reflexivity]). Qed.

Lemma addCardToTableTop_atomic_witness :
  let g := two_players ["8 of ♣"; "2 of ♣"] ["10 of ♢"] [("7 of ♡", JStr "9 of ♡")] in
  addCardToTableTop "A" "8 of ♣" g
    = (Throw (Error "Card numerical value isn't present on the table top."), g) /\
  g = g.
Proof.
  split; [reflexivity|].
  apply (addCardToTableTop_atomic "A" "8 of ♣" _ _
           "Card numerical value isn't present on the table top.").
  reflexivity.
Defined.

Lemma parseCard_round_trip_witness :
  "7" ∈ CardLabels /\ "♡" ∈ CardSuits /\
  card_string "7" "♡" ∈ generateCardDeck /\
  parseCard (JStr (card_string "7" "♡")) = Normal [JStr "7"; JStr "♡"].
Proof.
  assert (Hl : "7" ∈ CardLabels) by (apply (bool_decide_unpack _); reflexivity).
  assert (Hs : "♡" ∈ CardSuits) by (apply (bool_decide_unpack _); reflexivity).
  split; [exact Hl|]. split; [exact Hs|].
  exact (parseCard_round_trip "7" "♡" Hl Hs).
Defined.

(** ** Dealing *)

Lemma prop_get_set {A} (o : object A) (k k' : string) (v : A) :
  prop_get (prop_set o k v) k' = if String.eqb k k' then Some v else prop_get o k'.
Proof.
  induction o as [|[k0 v0] o IH]; cbn [prop_set prop_get].
  - done.
  - destruct (String.eqb_spec k0 k) as [->|Hne]; cbn [prop_get].
    + destruct (String.eqb_spec k k'); done.
    + rewrite IH. destruct (String.eqb_spec k0 k') as [->|]; [|done].
      destruct (String.eqb_spec k k'); [congruence|done].
Qed.

Lemma prop_set_keys_NoDup {A} (o : object A) (k : string) (v : A) :
  NoDup (Object_keys o) -> NoDup (Object_keys (prop_set o k v)).
Proof.
  intros Hnd. destruct (prop_get o k) as [v0|] eqn:Hget.
  - by erewrite prop_set_keys_present.
  - rewrite prop_set_keys_absent by done. apply NoDup_app. split; [done|].
    split; [|apply NoDup_singleton].
    intros x Hx ->%list_elem_of_singleton. by apply prop_get_None in Hget.
Qed.

Lemma deal_card_count K m id g :
  id ∈ K -> inv K (S m) g ->
  exists g', deal_card id g = (Normal tt, g') /\ inv K m g' /\
    S (length (deck g')) = length (deck g) /\
    forall id', hand_size (players g') id'
                = hand_size (players g) id' + (if String.eqb id id' then 1 else 0).
Proof.
  intros Hid (Hh & Ht & HK & Harr & Hperm & Hlen).
  unfold deal_card. run_action.
  destruct (prop_get_key (players g) id) as [p Hp]; [by rewrite HK|].
  rewrite Hp.
  assert (Hp' : exists a, player_deck p = Arr a).
  { clear -Hp Harr. induction Harr as [|[k0 p0] ps H0 _ IH]; simpl in *; [done|].
    destruct (String.eqb k0 id); [by simplify_eq|auto]. }
  destruct Hp' as [a Ha]. rewrite Ha.
  destruct (deck g) as [|x stock] eqn:Hd; [simpl in Hlen; lia|].
  cbn [Array_shift fst snd push_of]. eexists. split; [reflexivity|].
  cbn [players deck with_players with_deck history tableTop].
  split; [|split; [done|]].
  - unfold inv. cbn [players deck with_players with_deck history tableTop hands].
    unfold hands. cbn [players with_players with_deck].
    repeat split; auto.
    + by erewrite prop_set_keys_present.
    + apply prop_set_Forall; [done|]. simpl. eauto.
    + rewrite hands_push by done. rewrite <- Permutation_middle. exact Hperm.
    + simpl in Hlen. lia.
  - intros id'. unfold hand_size. rewrite prop_get_set.
    destruct (String.eqb_spec id id') as [<-|Hne]; [|lia].
    rewrite Hp. unfold hand. cbn [player_deck with_player_deck]. rewrite Ha.
    unfold Array_push. rewrite length_app. simpl. lia.
Qed.

Lemma deal_round_count K l m g :
  l ⊆ K -> NoDup l -> inv K (length l + m) g ->
  exists g', for_each l deal_card g = (Normal tt, g') /\ inv K m g' /\
    length (deck g') + length l = length (deck g) /\
    forall id, hand_size (players g') id
               = hand_size (players g) id + (if bool_decide (id ∈ l) then 1 else 0).
Proof.
  revert g. induction l as [|id l IH]; intros g Hsub Hnd Hinv.
  - exists g. cbn [for_each length]. split; [done|]. split; [exact Hinv|].
    split; [lia|]. intros id.
    rewrite bool_decide_eq_false_2; [lia|apply not_elem_of_nil].
  - apply NoDup_cons in Hnd as [Hid Hnd].
    destruct (deal_card_count K (length l + m) id g) as (g1 & Hrun1 & Hinv1 & Hd1 & Hs1);
      [apply Hsub; by left | exact Hinv |].
    destruct (IH g1) as (g2 & Hrun2 & Hinv2 & Hd2 & Hs2);
      [intros x Hx; apply Hsub; by right | done | done |].
    exists g2. cbn [for_each]. unfold mbind, action_bind. rewrite Hrun1.
    split; [exact Hrun2|]. split; [done|]. split; [cbn [length]; lia|].
    intros id'. rewrite Hs2, Hs1.
    destruct (String.eqb_spec id id') as [<-|Hne].
    + rewrite (bool_decide_eq_false_2 (id ∈ l)) by done.
      rewrite bool_decide_eq_true_2 by (by left). lia.
    + destruct (decide (id' ∈ l)) as [Hin|Hout].
      * rewrite !bool_decide_eq_true_2; [lia | by right | done].
      * rewrite !bool_decide_eq_false_2; [lia | | done].
        intros [?|?]%elem_of_cons; congruence.
Qed.

Lemma deal_all_count K rounds start m g :
  NoDup K -> inv K (rounds * length K + m) g ->
  exists g',
    for_each (seq start rounds)
      (fun index => g0 ← this; for_each (Object_keys (players g0)) deal_card) g
    = (Normal tt, g') /\ inv K m g' /\
    length (deck g') + rounds * length K = length (deck g) /\
    forall id, id ∈ K ->
      hand_size (players g') id = hand_size (players g) id + rounds.
Proof.
  intros Hnd. revert start g. induction rounds as [|r IH]; intros start g Hinv.
  - exists g. cbn [for_each seq]. split; [done|]. split; [exact Hinv|].
    split; [lia|]. intros; lia.
  - assert (HK : Object_keys (players g) = K) by apply Hinv.
    destruct (deal_round_count K K (r * length K + m) g) as (g1 & Hrun1 & Hinv1 & Hd1 & Hs1);
      [done | done | eapply inv_weaken; [|exact Hinv]; simpl; lia |].
    destruct (IH (S start) g1 Hinv1) as (g2 & Hrun2 & Hinv2 & Hd2 & Hs2).
    exists g2. cbn [for_each seq]. unfold mbind at 1, action_bind at 1.
    unfold mbind at 1, action_bind at 1, this at 1. rewrite HK, Hrun1.
    split; [exact Hrun2|]. split; [done|]. split; [simpl; lia|].
    intros id Hid. rewrite (Hs2 id Hid), Hs1, bool_decide_eq_true_2 by done. lia.
Qed.

Lemma card_string_parts (x : prim) :
  x ∈ map JStr generateCardDeck ->
  exists label suit, label ∈ CardLabels /\ suit ∈ CardSuits /\
    x = JStr (card_string label suit) /\
    parseCard x = Normal [JStr label; JStr suit].
Proof.
  intros (card & -> & Hcard)%list_elem_of_fmap.
  apply list_elem_of_In, in_concat in Hcard as (row & Hrow & Hcard).
  apply in_map_iff in Hrow as (label & <- & Hlabel).
  apply in_map_iff in Hcard as (suit & <- & Hsuit).
  apply list_elem_of_In in Hlabel, Hsuit.
  exists label, suit. split; [done|]. split; [done|]. split; [done|].
  assert (Hall : Forall (fun l => Forall (fun s =>
            parseCard (JStr (card_string l s)) = Normal [JStr l; JStr s]) CardSuits)
            CardLabels) by repeat constructor.
  rewrite Forall_forall in Hall. specialize (Hall _ Hlabel).
  rewrite Forall_forall in Hall. exact (Hall _ Hsuit).
Qed.

Lemma last_snoc {A} (l : list A) (x : A) : last (l ++ [x]) = Some x.
Proof. induction l as [|y [|z l] IH]; done. Qed.

Lemma deal_and_cut_count K m g :
  NoDup K -> inv K (DECK_SIZE * length K + S m) g ->
  exists g', deal_and_cut g = (Normal tt, g') /\ inv K (S m) g' /\
    length (deck g') + DECK_SIZE * length K = length (deck g) /\
    (forall id, id ∈ K ->
       hand_size (players g') id = hand_size (players g) id + DECK_SIZE) /\
    exists label suit, label ∈ CardLabels /\ suit ∈ CardSuits /\
      trumpSuite g' = JStr suit /\
      last (deck g') = Some (JStr (card_string label suit)).
Proof.
  intros Hnd Hinv.
  destruct (deal_all_count K DECK_SIZE 0 (S m) g Hnd Hinv)
    as (g1 & Hrun1 & Hinv1 & Hd1 & Hs1).
  destruct Hinv1 as (Hh & Ht & HK & Harr & Hperm & Hlen).
  destruct (deck g1) as [|x stock] eqn:Hd; [simpl in Hlen; lia|].
  assert (Hx : x ∈ map JStr generateCardDeck) by (rewrite <- Hperm; by left).
  destruct (card_string_parts x Hx) as (label & suit & Hlabel & Hsuit & -> & Hparse).
  unfold deal_and_cut. unfold mbind at 1, action_bind at 1. rewrite Hrun1.
  run_action. rewrite Hd.
  change (Array_get (JStr (card_string label suit) :: stock) 0)
    with (JStr (card_string label suit)).
  rewrite Hparse.
  change (Array_get [JStr label; JStr suit] 1) with (JStr suit).
  eexists. split; [reflexivity|].
  cbn [history tableTop players deck trumpSuite with_deck with_trumpSuite].
  rewrite Hd. cbn [Array_shift fst snd]. unfold Array_push.
  split; [|split; [|split; [exact Hs1|]]].
  - unfold inv, hands.
    cbn [history tableTop players deck with_deck with_trumpSuite].
    repeat split; auto.
    + rewrite <- Hperm, <- app_assoc. symmetry. apply Permutation_middle.
    + rewrite length_app. simpl in *. lia.
  - rewrite length_app. simpl in *. lia.
  - exists label, suit. repeat split; auto. apply last_snoc.
Qed.

Section Dealing.
Variable random : nat -> Q.
Variable nanoid : nat -> string.
Hypothesis random_range : forall k, (0 <= random k)%Q /\ (random k < 1)%Q.

Lemma add_players_NoDup (l : list nat) (ps : object Player) :
  NoDup (Object_keys ps) -> NoDup (Object_keys (fold_left (add_player nanoid) l ps)).
Proof.
  revert ps. induction l as [|i l IH]; intros ps Hps; [done|].
  cbn [fold_left]. apply IH. by apply prop_set_keys_NoDup.
Qed.

Lemma seated_hand_size (n : nat) (id : string) :
  hand_size (players (seated random nanoid n)) id = 0.
Proof.
  unfold hand_size.
  destruct (prop_get _ id) as [p|] eqn:Hp; [|done].
  assert (He := add_players_empty_hands nanoid (seq 0 n) [] ltac:(constructor)).
  unfold seated in Hp. cbn [players with_players] in Hp.
  revert Hp He. generalize (fold_left (add_player nanoid) (seq 0 n) []).
  induction o as [|[k0 p0] o IH]; cbn [prop_get]; [done|].
  intros Hp [Hp0 Ho]%Forall_cons.
  destruct (String.eqb k0 id); [|by apply IH].
  simplify_eq. unfold hand. simpl in Hp0. by rewrite Hp0.
Qed.

Lemma hand_size_array (g : Game) (K : list string) (m : nat) (id : string) :
  inv K m g -> id ∈ K ->
  exists p a, prop_get (players g) id = Some p /\ player_deck p = Arr a /\
              hand_size (players g) id = length a.
Proof.
  intros (_ & _ & HK & Harr & _) Hid.
  destruct (prop_get_key (players g) id) as [p Hp]; [by rewrite HK|].
  assert (Hp' : exists a, player_deck p = Arr a).
  { clear -Hp Harr. induction Harr as [|[k0 p0] ps H0 _ IH]; simpl in *; [done|].
    destruct (String.eqb k0 id); [by simplify_eq|auto]. }
  destruct Hp' as [a Ha]. exists p, a. split; [done|]. split; [done|].
  unfold hand_size, hand. by rewrite Hp, Ha.
Qed.

Lemma new_Game_deal (players_ : number) :
  negb (Number_isInteger players_) && num_lt players_ (Finite 0) = false ->
  num_gt players_ (Finite 8) = false ->
  exists g, new_Game random nanoid players_ = Normal g /\
    Object_keys (players g)
      = Object_keys (players (seated random nanoid (iterations players_))) /\
    (forall id, id ∈ Object_keys (players g) ->
       exists p a, prop_get (players g) id = Some p /\ player_deck p = Arr a /\
                   length a = DECK_SIZE) /\
    length (deck g) + DECK_SIZE * length (Object_keys (players g)) = 52 /\
    exists label suit, label ∈ CardLabels /\ suit ∈ CardSuits /\
      trumpSuite g = JStr suit /\
      last (deck g) = Some (JStr (card_string label suit)).
Proof.
  intros Hint Hgt. unfold new_Game. rewrite constructor_from_blank, Hint, Hgt by done.
  set (n := iterations players_).
  set (K := Object_keys (players (seated random nanoid n))).
  pose proof (iterations_le_8 _ Hgt) as H8.
  pose proof (seated_count random nanoid n) as Hcount.
  pose proof (seated_inv random nanoid random_range n) as Hseated.
  assert (HndK : NoDup K).
  { unfold K, seated. cbn [players with_players].
    apply add_players_NoDup. constructor. }
  destruct (deal_and_cut_count K 3 (seated random nanoid n) HndK)
    as (g & Hrun & Hinv & Hd & Hs & Htrump).
  { eapply inv_weaken; [|exact Hseated]. fold n K in Hcount. unfold DECK_SIZE. lia. }
  exists g. rewrite Hrun. split; [done|].
  assert (HKg : Object_keys (players g) = K) by apply Hinv.
  rewrite HKg. split; [done|]. split; [|split; [|exact Htrump]].
  - intros id Hid.
    destruct (hand_size_array g K 4 id Hinv Hid) as (p & a & Hp & Ha & Hsize).
    exists p, a. split; [done|]. split; [done|].
    rewrite <- Hsize, (Hs id Hid), seated_hand_size. done.
  - rewrite Hd. destruct Hseated as (_ & _ & _ & _ & Hperm & _).
    apply Permutation_length in Hperm.
    unfold hands in Hperm. rewrite length_app in Hperm.
    assert (He := add_players_empty_hands nanoid (seq 0 n) [] ltac:(constructor)).
    unfold seated in Hperm at 2. cbn [players with_players] in Hperm.
    rewrite (empty_hands _ He) in Hperm.
    rewrite length_map, (proj1 generateCardDeck_universe) in Hperm.
    cbn [length] in Hperm. fold K. lia.
Qed.
End Dealing.

(** ** Outcome of the constructor *)

Lemma isInteger_inject_Z (z : Z) : Number_isInteger (Finite (inject_Z z)) = true.
Proof. cbn [Number_isInteger]. rewrite Qfloor_Z. apply Qeq_bool_iff. reflexivity. Qed.

Lemma num_gt_inject_Z (z : Z) :
  num_gt (Finite (inject_Z z)) (Finite 8) = bool_decide (8 < z)%Z.
Proof.
  unfold num_gt, num_lt, Qlt_bool. change 8%Q with (inject_Z 8).
  destruct (decide (8 < z)%Z) as [H|H].
  - rewrite bool_decide_eq_true_2 by done. apply negb_true_iff.
    destruct (Qle_bool _ _) eqn:Hle; [|done].
    apply Qle_bool_iff in Hle. rewrite <- Zle_Qle in Hle. lia.
  - rewrite bool_decide_eq_false_2 by done. apply negb_false_iff, Qle_bool_iff.
    rewrite <- Zle_Qle. lia.
Qed.

Lemma iterations_inject_Z (z : Z) : iterations (Finite (inject_Z z)) = Z.to_nat z.
Proof. cbn [iterations]. by rewrite Qceiling_Z. Qed.

(** the loop test [index < players] holds exactly for the indices below
    [iterations players] *)
Lemma iterations_spec (players_ : number) (index : nat) :
  num_lt (of_nat index) players_ = true <-> index < iterations players_.
Proof.
  destruct players_ as [|q]; cbn [num_lt of_nat iterations]; [split; [done|lia]|].
  unfold Qlt_bool. rewrite negb_true_iff.
  split.
  - intros Hlt. destruct (Qle_bool q _) eqn:Hle; [done|].
    assert (Hq : (inject_Z (Z.of_nat index) < q)%Q).
    { apply Qnot_le_lt. intros H%Qle_bool_iff. congruence. }
    assert (Hc : (Z.of_nat index < Qceiling q)%Z).
    { rewrite Zlt_Qlt. eapply Qlt_le_trans; [exact Hq | apply Qle_ceiling]. }
    lia.
  - intros Hi. destruct (Qle_bool q _) eqn:Hle; [|done]. exfalso.
    apply Qle_bool_iff in Hle.
    apply Qceiling_resp_le in Hle. rewrite Qceiling_Z in Hle. lia.
Qed.

Section ConstructionOutcome.
Variable random : nat -> Q.
Variable nanoid : nat -> string.

Lemma new_Game_guard_positive (players_ : number) :
  negb (Number_isInteger players_) && num_lt players_ (Finite 0) = true ->
  new_Game random nanoid players_ = Throw NotPositiveInteger.
Proof. intros H. unfold new_Game. by rewrite constructor_from_blank, H. Qed.

Lemma new_Game_guard_eight (players_ : number) :
  negb (Number_isInteger players_) && num_lt players_ (Finite 0) = false ->
  num_gt players_ (Finite 8) = true ->
  new_Game random nanoid players_ = Throw MoreThanEight.
Proof. intros H1 H2. unfold new_Game. by rewrite constructor_from_blank, H1, H2. Qed.

(** A count above eight, integer or not, makes the constructor throw
    the error of the second guard. *)
Theorem new_Game_more_than_eight (q : Q) :
  (8 < q)%Q -> new_Game random nanoid (Finite q) = Throw MoreThanEight.
Proof.
  intros Hq. apply new_Game_guard_eight.
  - apply andb_false_iff. right. cbn [num_lt]. unfold Qlt_bool.
    apply negb_false_iff, Qle_bool_iff. apply Qlt_le_weak.
    eapply Qlt_trans; [|exact Hq]. reflexivity.
  - cbn [num_gt num_lt]. unfold Qlt_bool. apply negb_true_iff.
    destruct (Qle_bool q 8) eqn:Hle; [|done].
    apply Qle_bool_iff in Hle. exfalso. by apply (Qlt_not_le _ _ Hq).
Qed.

(** A negative count that is not an integer makes the constructor throw
    the error of the first guard. *)
Theorem new_Game_negative_fraction (q : Q) :
  (q < 0)%Q -> ~ (q == inject_Z (Qfloor q))%Q ->
  new_Game random nanoid (Finite q) = Throw NotPositiveInteger.
Proof.
  intros Hneg Hfrac. apply new_Game_guard_positive. apply andb_true_iff. split.
  - cbn [Number_isInteger]. apply negb_true_iff.
    destruct (Qeq_bool _ _) eqn:H; [|done]. by apply Qeq_bool_iff in H.
  - cbn [num_lt]. unfold Qlt_bool. apply negb_true_iff.
    destruct (Qle_bool 0 q) eqn:Hle; [|done].
    apply Qle_bool_iff in Hle. exfalso. by apply (Qlt_not_le _ _ Hneg).
Qed.

Hypothesis random_range : forall k, (0 <= random k)%Q /\ (random k < 1)%Q.

(** For an integer count the constructor throws exactly when the count
    is greater than eight; zero and the negative integers are accepted. *)
Theorem new_Game_integer_count (z : Z) :
  (exists e, new_Game random nanoid (Finite (inject_Z z)) = Throw e) <-> (8 < z)%Z.
Proof.
  assert (Hint : negb (Number_isInteger (Finite (inject_Z z)))
                 && num_lt (Finite (inject_Z z)) (Finite 0) = false)
    by (by rewrite isInteger_inject_Z).
  split.
  - intros [e He]. destruct (decide (8 < z)%Z) as [|Hle]; [done|]. exfalso.
    destruct (new_Game_accepted random nanoid random_range _ Hint) as (g & Hg & _).
    { rewrite num_gt_inject_Z. by apply bool_decide_eq_false_2. }
    congruence.
  - intros Hz. exists MoreThanEight. apply new_Game_guard_eight; [done|].
    rewrite num_gt_inject_Z. by apply bool_decide_eq_true_2.
Qed.

(** For a count [n] of at most eight and distinct generated ids, the
    constructor creates the [n] players in the order of their ids, deals
    [DECK_SIZE] cards to each of them and leaves [52 - DECK_SIZE * n]
    cards in the stock. *)
Theorem new_Game_counted (n : nat) :
  n <= 8 -> NoDup (map nanoid (seq 0 n)) ->
  exists g, new_Game random nanoid (of_nat n) = Normal g /\
    Object_keys (players g) = map nanoid (seq 0 n) /\
    (forall id, id ∈ map nanoid (seq 0 n) ->
       exists p a, prop_get (players g) id = Some p /\ player_deck p = Arr a /\
                   length a = DECK_SIZE) /\
    length (deck g) = 52 - DECK_SIZE * n.
Proof.
  intros Hn Hids. unfold of_nat.
  destruct (new_Game_deal random nanoid random_range (Finite (inject_Z (Z.of_nat n))))
    as (g & Hnew & Hkeys & Hhands & Hstock & _).
  { by rewrite isInteger_inject_Z. }
  { rewrite num_gt_inject_Z. apply bool_decide_eq_false_2. lia. }
  rewrite iterations_inject_Z, Nat2Z.id in Hkeys.
  assert (Hseated : Object_keys (players (seated random nanoid n)) = map nanoid (seq 0 n)).
  { unfold seated. cbn [players with_players].
    by rewrite (add_players_keys nanoid (seq 0 n) []). }
  rewrite Hseated in Hkeys. rewrite Hkeys in Hhands, Hstock.
  exists g. split; [done|]. split; [done|]. split; [done|].
  rewrite length_map, length_seq in Hstock. lia.
Qed.

(** Whatever count the constructor accepts (also a fraction, also when
    generated ids collide): history and table top are empty, there are
    at most as many players as the loop has iterations, every player
    holds an array of [DECK_SIZE] cards, and the stock holds the other
    cards. *)
Theorem new_Game_hands (players_ : number) (g : Game) :
  new_Game random nanoid players_ = Normal g ->
  history g = [] /\ tableTop g = [] /\
  length (Object_keys (players g)) <= iterations players_ /\
  (forall id, id ∈ Object_keys (players g) ->
     exists p a, prop_get (players g) id = Some p /\ player_deck p = Arr a /\
                 length a = DECK_SIZE) /\
  length (deck g) + DECK_SIZE * length (Object_keys (players g)) = 52.
Proof.
  intros Hnew.
  pose proof (new_Game_Normal random nanoid random_range players_ g Hnew) as Hinv.
  destruct (negb (Number_isInteger players_) && num_lt players_ (Finite 0)) eqn:Hint.
  { rewrite new_Game_guard_positive in Hnew; done. }
  destruct (num_gt players_ (Finite 8)) eqn:Hgt.
  { rewrite new_Game_guard_eight in Hnew; done. }
  destruct (new_Game_deal random nanoid random_range players_ Hint Hgt)
    as (g' & Hnew' & Hkeys & Hhands & Hstock & _).
  assert (g' = g) as -> by congruence.
  split; [apply Hinv|]. split; [apply Hinv|]. split; [|done].
  rewrite Hkeys. apply seated_count.
Qed.

(** The trump suit of a constructed game is one of the four suits, and
    it is the suit of the last card of the stock: the card that decided
    it was moved from the head of the stock to its end. *)
Theorem new_Game_trump (players_ : number) (g : Game) :
  new_Game random nanoid players_ = Normal g ->
  exists label suit, label ∈ CardLabels /\ suit ∈ CardSuits /\
    trumpSuite g = JStr suit /\
    last (deck g) = Some (JStr (card_string label suit)).
Proof.
  intros Hnew.
  destruct (negb (Number_isInteger players_) && num_lt players_ (Finite 0)) eqn:Hint.
  { rewrite new_Game_guard_positive in Hnew; done. }
  destruct (num_gt players_ (Finite 8)) eqn:Hgt.
  { rewrite new_Game_guard_eight in Hnew; done. }
  destruct (new_Game_deal random nanoid random_range players_ Hint Hgt)
    as (g' & Hnew' & _ & _ & _ & Htrump).
  assert (g' = g) as -> by congruence. exact Htrump.
Qed.
End ConstructionOutcome.

(** ** Outcomes of [addCardToTableTop] *)

(** [addCardToTableTop] throws the error of a full table, leaving the
    game unchanged, exactly when the table top has six or more entries,
    whoever calls and whatever the card. *)
Theorem addCardToTableTop_TableFull (from card : string) (g : Game) :
  addCardToTableTop from card g = (Throw TableFull, g) <-> 6 <= length (tableTop g).
Proof.
  unfold addCardToTableTop, getTableTopDeck, Object_keys. run_action.
  rewrite length_map.
  destruct (Nat.ltb_spec (length (tableTop g)) 6) as [Hlt|Hge]; cbn [negb].
  - split; [|lia]. intros H.
    repeat (step_in H; type_errors; try discriminate H).
  - done.
Qed.

(** [addCardToTableTop] throws the error of an unknown player, leaving
    the game unchanged, exactly when the table top has fewer than six
    entries and [from] is neither the id of a player nor the name of a
    property inherited from [Object.prototype] (for such a name, like
    [toString], the lookup finds a built-in value and the check for
    [undefined] lets the call pass). *)
Theorem addCardToTableTop_UnknownPlayer (from card : string) (g : Game) :
  addCardToTableTop from card g = (Throw UnknownPlayer, g)
  <-> (length (tableTop g) < 6 /\ (from ∉ Object_keys (players g))
       /\ (from ∉ Object_prototype)).
Proof.
  rewrite <- prop_get_None, <- member_of_None.
  unfold addCardToTableTop, getTableTopDeck. run_action.
  unfold Object_keys at 1. rewrite length_map.
  destruct (Nat.ltb_spec (length (tableTop g)) 6) as [Hlt|Hge]; cbn [negb].
  - destruct (member_of (players g) from) as [player|] eqn:Hp.
    + split; [|by intros [_ ?]]. intros H.
      repeat (step_in H; type_errors; try discriminate H).
    + done.
  - split; [discriminate | lia].
Qed.

(** Names inherited from [Object.prototype] pass the check for an
    unknown player and fail later, with a [TypeError]. *)
Example addCardToTableTop_inherited_from :
  addCardToTableTop "toString" "7 of ♣" covered_attack = (Throw TypeError, covered_attack) /\
  addCardToTableTop "__proto__" "2 of ♡" new_game_of_two
    = (Throw TypeError, new_game_of_two) /\
  addCardToTableTop "nobody" "7 of ♣" covered_attack
    = (Throw UnknownPlayer, covered_attack).
Proof. repeat split. Qed.

Lemma addCardToTableTop_inherited (from card : string) (g : Game) :
  member_of (players g) from = Some Inherited ->
  addCardToTableTop from card g = (Throw TableFull, g) \/
  addCardToTableTop from card g = (Throw TypeError, g).
Proof.
  intros Hm. unfold addCardToTableTop. run_action. rewrite Hm.
  destruct (negb _); [by left|]. right.
  destruct (Array_reduce _ _) as [reduced|e] eqn:Hr; [|by type_errors].
  destruct (length_of (Prim reduced)) as [n|e] eqn:Hn; [|by type_errors].
  reflexivity.
Qed.

Lemma prop_set_elem {A} (o : object A) (k : string) (v : A) : (k, v) ∈ prop_set o k v.
Proof.
  induction o as [|[k0 v0] o IH]; cbn [prop_set]; [by left|].
  destruct (String.eqb_spec k0 k) as [->|]; [by left | by right].
Qed.

Lemma Array_includes_elem (a : list prim) (card : string) :
  Array_includes a (JStr card) = true <-> JStr card ∈ a.
Proof.
  unfold Array_includes. rewrite existsb_exists. split.
  - intros (y & Hy & Heq). destruct y as [| | |[]|s]; try discriminate Heq.
    apply String.eqb_eq in Heq as ->. by apply list_elem_of_In.
  - intros Hin. exists (JStr card). split; [by apply list_elem_of_In|].
    cbn. apply String.eqb_refl.
Qed.

Lemma fold_left_collapse (card : string) (rest : list prim) :
  fold_left (fun item _ => JBool (negb (strict_eq item (JStr card)))) rest (JBool true)
  = JBool true.
Proof. induction rest as [|y rest IH]; [done | exact IH]. Qed.

Lemma reduce_collapsed (card : string) (a : list prim) (r : prim) :
  Array_reduce (fun item _ => JBool (negb (strict_eq item (JStr card)))) a = Normal r ->
  r = collapsed card a.
Proof.
  destruct a as [|x [|y [|z rest]]]; cbn [Array_reduce collapsed fold_left];
    try congruence.
  intros [= <-]. apply fold_left_collapse.
Qed.

(** What a call of [addCardToTableTop] that completes normally requires
    and does: the table top had between one and five entries, none of
    them uncovered; the caller is a player whose hand is an array that
    holds the card; afterwards the card is on the table top with the
    value [null], stock, history and trump suit are as before, and the
    hand of the caller is the value [reduce] returned: the card itself
    for a hand of one card, a boolean for a longer hand. *)
Theorem addCardToTableTop_Normal (from card : string) (g g' : Game) :
  addCardToTableTop from card g = (Normal tt, g') ->
  0 < length (tableTop g) < 6 /\
  (forall k, (k, JNull) ∉ tableTop g) /\
  exists player a,
    prop_get (players g) from = Some player /\
    player_deck player = Arr a /\ JStr card ∈ a /\
    g' = mkGame (history g)
           (prop_set (players g) from (with_player_deck (Prim (collapsed card a)) player))
           (prop_set (tableTop g) card JNull) (deck g) (trumpSuite g).
Proof.
  intros Hadd.
  split; [|split].
  - split.
    + destruct (tableTop g) eqn:Ht; [|simpl; lia].
      by apply addCardToTableTop_empty_table_fails with (from := from) (card := card) (g' := g')
        in Ht.
    + destruct (decide (length (tableTop g) < 6)) as [|Hge]; [done|].
      assert (H6 : 6 <= length (tableTop g)) by lia.
      revert Hadd. unfold addCardToTableTop. run_action.
      unfold Object_keys. rewrite length_map.
      destruct (Nat.ltb_spec (length (tableTop g)) 6); [lia|]. done.
  - intros k Hk.
    destruct (addCardToTableTop_uncovered from card k g Hk) as (_ & e & He & _).
    rewrite Hadd in He. discriminate He.
  - revert Hadd. unfold addCardToTableTop, getTableTopDeck. run_action. intros H.
    repeat (step_in H; try discriminate H).
    own_member. injection H as <-.
    exists player.
    match goal with Hr : reduce_of _ _ = Normal _ |- _ => rename Hr into Hreduce end.
    match goal with Hi : includes_of _ _ = Normal _ |- _ => rename Hi into Hheld end.
    destruct (player_deck player) as [pr|cards] eqn:Hdeck; cbn [reduce_of] in Hreduce;
      [discriminate Hreduce|].
    apply reduce_collapsed in Hreduce as ->.
    cbn [includes_of] in Hheld. injection Hheld as <-.
    exists cards. split; [done|]. split; [done|]. split; [|by destruct g].
    apply Array_includes_elem.
    match goal with Hb : negb (Array_includes cards _) = false |- _ =>
      by apply negb_false_iff in Hb end.
Qed.

Lemma addCardToTableTop_blocked (from card k : string) (g : Game) :
  (k, JNull) ∈ tableTop g -> exists e, addCardToTableTop from card g = (Throw e, g).
Proof.
  intros Hk. destruct (addCardToTableTop_uncovered from card k g Hk) as (Hs & e & He & _).
  exists e. rewrite (surjective_pairing (addCardToTableTop _ _ _)). by rewrite Hs, He.
Qed.

(** After a call of [addCardToTableTop] has completed normally, the card
    it entered is an uncovered attack, so every later call of
    [addCardToTableTop] throws, and no method call changes the game any
    more: at most one attack is ever added to a game object. *)
Theorem addCardToTableTop_only_once (from card : string) (g g' : Game) :
  addCardToTableTop from card g = (Normal tt, g') ->
  (forall c, after c g' = g') /\
  (forall from' card', exists e, addCardToTableTop from' card' g' = (Throw e, g')).
Proof.
  intros Hadd.
  destruct (addCardToTableTop_success from card g g' Hadd) as (p & rest & _ & ->).
  set (g1 := with_players _ _).
  assert (Hk : (card, JNull) ∈ tableTop g1) by apply prop_set_elem.
  split; [|intros from' card'; by apply (addCardToTableTop_blocked _ _ card)].
  intros [from' card'| | | | | |]; try reflexivity.
  cbn [after]. by destruct (addCardToTableTop_blocked from' card' card g1 Hk) as [e ->].
Qed.

(** ** [parseCard] and [generateCardDeck] *)

Lemma split_from_skip (sep pre rest cur : string) :
  split_from sep (String.length pre) cur (pre +:+ rest) = split_from sep 0 cur rest.
Proof.
  induction pre as [|c pre IH]; [done|].
  rewrite append_cons. cbn [String.length split_from]. exact IH.
Qed.

Lemma length_append (a b : string) :
  String.length (a +:+ b) = String.length a + String.length b.
Proof. induction a as [|c a IH]; [done|]. rewrite append_cons. cbn [String.length]. lia. Qed.

Lemma split_from_nonempty (sep : string) (skip : nat) (cur s : string) :
  split_from sep skip cur s <> [].
Proof.
  revert skip cur. induction s as [|c s IH]; intros skip cur; cbn [split_from]; [done|].
  destruct skip; [|apply IH]. destruct (starts_with _ _); [done | apply IH].
Qed.

Lemma Array_join_cons (x : string) (rest : list string) (sep : string) :
  rest <> [] -> Array_join (x :: rest) sep = x +:+ sep +:+ Array_join rest sep.
Proof. by destruct rest. Qed.

Lemma split_from_join (sep : string) (n : nat) :
  sep <> "" ->
  forall s cur, String.length s <= n ->
    Array_join (split_from sep 0 cur s) sep = cur +:+ s.
Proof.
  intros Hsep. induction n as [|n IH]; intros s cur Hlen.
  - destruct s; [|simpl in Hlen; lia]. cbn. by rewrite append_empty_r.
  - destruct s as [|c s]; [cbn; by rewrite append_empty_r|].
    cbn [split_from].
    destruct (starts_with (String c s) sep) eqn:Hstart.
    + apply starts_with_spec in Hstart as [rest Hrest].
      destruct sep as [|c' sep']; [done|].
      rewrite append_cons in Hrest. injection Hrest as <- ->.
      replace (String.length (String c sep') - 1) with (String.length sep')
        by (cbn [String.length]; lia).
      assert (Hrl : String.length rest <= n).
      { cbn [String.length] in Hlen. rewrite length_append in Hlen. lia. }
      rewrite Array_join_cons by apply split_from_nonempty.
      rewrite split_from_skip, (IH rest "" Hrl). by rewrite append_cons.
    + rewrite IH by (cbn [String.length] in Hlen; lia).
      by rewrite append_assoc.
Qed.

Theorem parseCard_join (card : string) :
  Array_join (String_split card " of ") " of " = card.
Proof.
  unfold String_split.
  by rewrite (split_from_join " of " (String.length card)).
Qed.

(** [parseCard] loses nothing of its input: it returns at least one
    piece, and the pieces joined by [" of "] are the input string. *)
Theorem parseCard_pieces (card : string) :
  exists pieces, parseCard (JStr card) = Normal (map JStr pieces) /\
    pieces <> [] /\ Array_join pieces " of " = card.
Proof.
  exists (String_split card " of "). split; [done|]. split.
  - apply split_from_nonempty.
  - apply parseCard_join.
Qed.

(** The deck is generated label by label: the card of the [i]-th label
    and the [j]-th suit is at index [4 * i + j]. *)
Theorem generateCardDeck_order (i j : nat) (label suit : string) :
  CardLabels !! i = Some label -> CardSuits !! j = Some suit ->
  generateCardDeck !! (4 * i + j) = Some (card_string label suit).
Proof.
  intros Hi Hj.
  do 14 (destruct i as [|i]; [do 5 (destruct j as [|j]; [by simplify_eq/= |]); done |]).
  done.
Qed.

(** ** Further outcomes of [addCardToTableTop] *)

(** The first attack of a game cannot be placed: on an empty table top
    every call throws and leaves the game unchanged.  The error is the
    [TypeError] of [reduce] on an empty array when the lookup of [from]
    finds something, a player or a property inherited from
    [Object.prototype], and the error for an unknown player otherwise. *)
Theorem addCardToTableTop_first_attack (from card : string) (g : Game) :
  tableTop g = [] ->
  addCardToTableTop from card g
  = (Throw (if bool_decide (from ∈ Object_keys (players g))
               || bool_decide (from ∈ Object_prototype)
            then TypeError else UnknownPlayer), g).
Proof.
  intros Ht. unfold addCardToTableTop. run_action. rewrite Ht.
  cbn [Object_keys map length Nat.ltb Nat.leb negb].
  destruct (member_of (players g) from) as [m|] eqn:Hm.
  - destruct (bool_decide (from ∈ Object_keys (players g))
              || bool_decide (from ∈ Object_prototype)) eqn:Hfound; [done|].
    apply orb_false_iff in Hfound as [Hown Hproto].
    apply bool_decide_eq_false in Hown, Hproto.
    assert (member_of (players g) from = None); [|congruence].
    apply member_of_None. split; [by apply prop_get_None | done].
  - apply member_of_None in Hm as [Hown Hproto]. apply prop_get_None in Hown.
    by rewrite !bool_decide_eq_false_2.
Qed.

Lemma addCardToTableTop_first_attack_witness :
  tableTop new_game_of_two = [] /\
  addCardToTableTop "A" "2 of ♡" new_game_of_two = (Throw TypeError, new_game_of_two).
Proof.
  split; [reflexivity|].
  exact (addCardToTableTop_first_attack "A" "2 of ♡" new_game_of_two eq_refl).
Defined.

(** While an attack on the table is uncovered, every call of
    [addCardToTableTop] throws and leaves the game unchanged, and the
    error is never the rank error. *)
Theorem addCardToTableTop_with_uncovered_attack (from card k : string) (g : Game) :
  (k, JNull) ∈ tableTop g ->
  exists e, addCardToTableTop from card g = (Throw e, g) /\ e <> RankNotOnTable.
Proof.
  intros Hk. destruct (addCardToTableTop_uncovered from card k g Hk) as (Hs & e & He & Hne).
  exists e. split; [|done].
  rewrite (surjective_pairing (addCardToTableTop _ _ _)). by rewrite Hs, He.
Qed.

Lemma addCardToTableTop_with_uncovered_attack_witness :
  ("7 of ♣", JNull) ∈ tableTop after_attack /\
  exists e, addCardToTableTop "B" "10 of ♢" after_attack = (Throw e, after_attack) /\
            e <> RankNotOnTable.
Proof.
  assert (H : ("7 of ♣", JNull) ∈ tableTop after_attack) by (right; left).
  split; [exact H|].
  exact (addCardToTableTop_with_uncovered_attack "B" "10 of ♢" "7 of ♣" after_attack H).
Defined.

(** When every value on the table top is [null] or a string of at least
    two code units (every card string has six or more), the capacity
    error is never thrown. *)
Theorem addCardToTableTop_no_capacity_error (from card : string) (g : Game) :
  Forall (fun entry => card_like (snd entry)) (tableTop g) ->
  fst (addCardToTableTop from card g) <> Throw InsufficientDefenderCards.
Proof. apply addCardToTableTop_never_InsufficientDefenderCards. Qed.

Lemma covered_attack_card_like :
  Forall (fun entry => card_like (snd entry)) (tableTop covered_attack).
Proof.
  constructor; [|constructor]. right. exists "9 of ♡". split; [reflexivity|].
  vm_compute. lia.
Qed.

Lemma addCardToTableTop_no_capacity_error_witness :
  Forall (fun entry => card_like (snd entry)) (tableTop covered_attack) /\
  fst (addCardToTableTop "A" "7 of ♣" covered_attack) <> Throw InsufficientDefenderCards.
Proof.
  split; [exact covered_attack_card_like|].
  exact (addCardToTableTop_no_capacity_error "A" "7 of ♣" covered_attack
           covered_attack_card_like).
Defined.

(** When the hand of the calling player is an array, every exception of
    [addCardToTableTop], also a [TypeError] of a built-in, leaves the
    game unchanged. *)
Theorem addCardToTableTop_throw_keeps_state (from card : string) (g g' : Game) (e : exn) :
  (forall p, prop_get (players g) from = Some p -> exists a, player_deck p = Arr a) ->
  addCardToTableTop from card g = (Throw e, g') -> g' = g.
Proof. apply addCardToTableTop_atomic_arrays. Qed.

Lemma new_game_of_two_arrays (from : string) (p : Player) :
  prop_get (players new_game_of_two) from = Some p -> exists a, player_deck p = Arr a.
Proof.
  cbn [new_game_of_two players prop_get].
  repeat (case_match; [intros [= <-]; cbn [player_deck]; eauto|]). done.
Qed.

Lemma addCardToTableTop_throw_keeps_state_witness :
  (forall p, prop_get (players new_game_of_two) "A" = Some p ->
             exists a, player_deck p = Arr a) /\
  addCardToTableTop "A" "2 of ♡" new_game_of_two = (Throw TypeError, new_game_of_two) /\
  new_game_of_two = new_game_of_two.
Proof.
  split; [exact (new_game_of_two_arrays "A")|]. split; [reflexivity|].
  exact (addCardToTableTop_throw_keeps_state "A" "2 of ♡" new_game_of_two new_game_of_two
           TypeError (new_game_of_two_arrays "A") eq_refl).
Defined.

Lemma addCardToTableTop_Normal_witness :
  addCardToTableTop "A" "7 of ♣" covered_attack = (Normal tt, after_attack) /\
  0 < length (tableTop covered_attack) < 6 /\
  (forall k, (k, JNull) ∉ tableTop covered_attack) /\
  exists player a,
    prop_get (players covered_attack) "A" = Some player /\
    player_deck player = Arr a /\ JStr "7 of ♣" ∈ a /\
    after_attack
    = mkGame (history covered_attack)
        (prop_set (players covered_attack) "A"
           (with_player_deck (Prim (collapsed "7 of ♣" a)) player))
        (prop_set (tableTop covered_attack) "7 of ♣" JNull)
        (deck covered_attack) (trumpSuite covered_attack).
Proof.
  split; [reflexivity|].
  exact (addCardToTableTop_Normal "A" "7 of ♣" covered_attack after_attack eq_refl).
Defined.

Lemma addCardToTableTop_only_once_witness :
  addCardToTableTop "A" "7 of ♣" covered_attack = (Normal tt, after_attack) /\
  (forall c, after c after_attack = after_attack) /\
  (forall from' card',
     exists e, addCardToTableTop from' card' after_attack = (Throw e, after_attack)).
Proof.
  split; [reflexivity|].
  exact (addCardToTableTop_only_once "A" "7 of ♣" covered_attack after_attack eq_refl).
Defined.

(** No sequence of method calls changes a newly constructed game: the
    methods other than [addCardToTableTop] have empty bodies and the
    first attack always throws. *)
Theorem new_Game_frozen (random : nat -> Q) (nanoid : nat -> string)
    (players_ : number) (g0 g : Game) :
  (forall k, (0 <= random k)%Q /\ (random k < 1)%Q) ->
  new_Game random nanoid players_ = Normal g0 ->
  reachable g0 g -> g = g0.
Proof.
  intros Hrandom Hnew Hreach.
  pose proof (new_Game_Normal random nanoid Hrandom players_ g0 Hnew) as Hinv.
  apply (reachable_empty_table g0 g); [apply Hinv | done].
Qed.

Lemma new_Game_frozen_witness :
  (forall k, (0 <= random_half k)%Q /\ (random_half k < 1)%Q) /\
  new_Game random_half nanoid_letters (Finite 2) = Normal new_game_of_two /\
  reachable new_game_of_two
    (after (CoverCardOnTableTop "2 of ♡" "3 of ♡")
       (after (AddCardToTableTop "A" "2 of ♡") new_game_of_two)) /\
  after (CoverCardOnTableTop "2 of ♡" "3 of ♡")
    (after (AddCardToTableTop "A" "2 of ♡") new_game_of_two) = new_game_of_two.
Proof.
  assert (Hnew : new_Game random_half nanoid_letters (Finite 2) = Normal new_game_of_two)
    by (vm_compute; reflexivity).
  assert (Hreach : reachable new_game_of_two
            (after (CoverCardOnTableTop "2 of ♡" "3 of ♡")
               (after (AddCardToTableTop "A" "2 of ♡") new_game_of_two)))
    by (do 2 apply reachable_call; apply reachable_new).
  split; [exact random_half_range|]. split; [exact Hnew|]. split; [exact Hreach|].
  exact (new_Game_frozen random_half nanoid_letters (Finite 2) new_game_of_two _
           random_half_range Hnew Hreach).
Defined.

Lemma Array_includes_strings (l : list string) (x : prim) :
  Array_includes (map JStr l) x = true -> exists s, x = JStr s /\ s ∈ l.
Proof.
  unfold Array_includes. rewrite existsb_exists. intros (y & Hy & Heq).
  apply in_map_iff in Hy as (s & <- & Hs).
  destruct x as [| | |[]|t]; try discriminate Heq.
  apply String.eqb_eq in Heq as ->. exists t. split; [done|]. by apply list_elem_of_In.
Qed.

Lemma labels_elem (items labels : list prim) (label : string) :
  map_callback (fun item => parsed ← parseCard item; Normal (Array_get parsed 0)) items
  = Normal labels ->
  Array_includes labels (JStr label) = true ->
  exists other, JStr other ∈ items /\ head (String_split other " of ") = Some label.
Proof.
  revert labels. induction items as [|item items IH]; intros labels Hmap Hin.
  - injection Hmap as <-. discriminate Hin.
  - cbn [map_callback] in Hmap. unfold mbind, completion_bind in Hmap.
    destruct (parseCard item) as [parsed|] eqn:Hparse; [|discriminate].
    destruct (map_callback _ items) as [labels'|] eqn:Hrest; [|discriminate].
    injection Hmap as <-. cbn [Array_includes existsb] in Hin.
    apply orb_true_iff in Hin as [Hhere|Hlater].
    + destruct item as [| | | |other]; try discriminate Hparse.
      injection Hparse as <-. exists other. split; [by left|].
      destruct (String_split other " of ") as [|first more]; [discriminate Hhere|].
      cbn in Hhere. apply String.eqb_eq in Hhere as ->. done.
    + destruct (IH labels' eq_refl Hlater) as (other & Ho & Hh).
      exists other. split; [by right | done].
Qed.

(** A card that [addCardToTableTop] accepts starts with a label of
    [CardLabels] and a suit of [CardSuits] (pieces after the second are
    not looked at), and its label is the label of a card on the table
    top, attacking or covering. *)
Theorem addCardToTableTop_rank_on_table (from card : string) (g g' : Game) :
  addCardToTableTop from card g = (Normal tt, g') ->
  exists label suit more other table,
    String_split card " of " = label :: suit :: more /\
    label ∈ CardLabels /\ suit ∈ CardSuits /\
    fst (getTableTopDeck g) = Normal table /\ JStr other ∈ table /\
    head (String_split other " of ") = Some label.
Proof.
  unfold addCardToTableTop, getTableTopDeck. run_action. intros H.
  repeat (step_in H; try discriminate H).
  match goal with Hp : parseCard (JStr card) = Normal ?parts |- _ =>
    injection Hp as <- end.
  match goal with Hv : _ || _ = false |- _ =>
    apply orb_false_iff in Hv as [Hlabel Hsuit];
    apply negb_false_iff, Array_includes_strings in Hlabel as (label & Hl & Hlabel);
    apply negb_false_iff, Array_includes_strings in Hsuit as (suit & Hs & Hsuit)
  end.
  destruct (String_split card " of ") as [|l0 [|s0 more]] eqn:Hsplit;
    try discriminate Hl; try discriminate Hs.
  injection Hl as ->. injection Hs as ->.
  match goal with
  | Hm : map_callback _ _ = Normal ?labels, Hi : negb (Array_includes ?labels _) = false |- _ =>
      apply negb_false_iff in Hi;
      destruct (labels_elem _ _ label Hm Hi) as (other & Hother & Hhead)
  end.
  exists label, suit, more, other. eexists.
  split; [done|]. split; [done|]. split; [done|]. split; [reflexivity|]. done.
Qed.

Lemma addCardToTableTop_rank_on_table_witness :
  addCardToTableTop "A" "7 of ♣" covered_attack = (Normal tt, after_attack) /\
  exists label suit more other table,
    String_split "7 of ♣" " of " = label :: suit :: more /\
    label ∈ CardLabels /\ suit ∈ CardSuits /\
    fst (getTableTopDeck covered_attack) = Normal table /\ JStr other ∈ table /\
    head (String_split other " of ") = Some label.
Proof.
  split; [reflexivity|].
  exact (addCardToTableTop_rank_on_table "A" "7 of ♣" covered_attack after_attack eq_refl).
Defined.

(** ** Examples of the statements above *)

Lemma generateCardDeck_order_witness :
  CardLabels !! 5 = Some "7" /\ CardSuits !! 0 = Some "♡" /\
  generateCardDeck !! (4 * 5 + 0) = Some (card_string "7" "♡").
Proof.
  split; [reflexivity|]. split; [reflexivity|].
  exact (generateCardDeck_order 5 0 "7" "♡" eq_refl eq_refl).
Defined.

Lemma new_Game_more_than_eight_witness :
  (8 < 9)%Q /\ new_Game random_half nanoid_letters (Finite 9) = Throw MoreThanEight.
Proof.
  split; [reflexivity|].
  exact (new_Game_more_than_eight random_half nanoid_letters 9 eq_refl).
Defined.

Lemma new_Game_negative_fraction_witness :
  (-3 # 2 < 0)%Q /\ ~ (-3 # 2 == inject_Z (Qfloor (-3 # 2)))%Q /\
  new_Game random_half nanoid_letters (Finite (-3 # 2)) = Throw NotPositiveInteger.
Proof.
  assert (H : ~ (-3 # 2 == inject_Z (Qfloor (-3 # 2)))%Q) by (vm_compute; discriminate).
  split; [reflexivity|]. split; [exact H|].
  exact (new_Game_negative_fraction random_half nanoid_letters (-3 # 2) eq_refl H).
Defined.

Lemma new_Game_integer_count_witness :
  (forall k, (0 <= random_half k)%Q /\ (random_half k < 1)%Q) /\
  ((exists e, new_Game random_half nanoid_letters (Finite (inject_Z (-3))) = Throw e)
   <-> (8 < -3)%Z).
Proof.
  split; [exact random_half_range|].
  exact (new_Game_integer_count random_half nanoid_letters random_half_range (-3)).
Defined.

Lemma nanoid_letters_distinct : NoDup (map nanoid_letters (seq 0 2)).
Proof. apply (bool_decide_unpack _). reflexivity. Qed.

Lemma new_Game_counted_witness :
  2 <= 8 /\ NoDup (map nanoid_letters (seq 0 2)) /\
  exists g, new_Game random_half nanoid_letters (of_nat 2) = Normal g /\
    Object_keys (players g) = map nanoid_letters (seq 0 2) /\
    (forall id, id ∈ map nanoid_letters (seq 0 2) ->
       exists p a, prop_get (players g) id = Some p /\ player_deck p = Arr a /\
                   length a = DECK_SIZE) /\
    length (deck g) = 52 - DECK_SIZE * 2.
Proof.
  assert (H : 2 <= 8) by lia.
  split; [exact H|]. split; [exact nanoid_letters_distinct|].
  exact (new_Game_counted random_half nanoid_letters random_half_range 2 H
           nanoid_letters_distinct).
Defined.

Lemma new_game_of_two_built :
  new_Game random_half nanoid_letters (Finite 2) = Normal new_game_of_two.
Proof. vm_compute. reflexivity. Qed.

Lemma new_Game_hands_witness :
  (forall k, (0 <= random_half k)%Q /\ (random_half k < 1)%Q) /\
  new_Game random_half nanoid_letters (Finite 2) = Normal new_game_of_two /\
  history new_game_of_two = [] /\ tableTop new_game_of_two = [] /\
  length (Object_keys (players new_game_of_two)) <= iterations (Finite 2) /\
  (forall id, id ∈ Object_keys (players new_game_of_two) ->
     exists p a, prop_get (players new_game_of_two) id = Some p /\
                 player_deck p = Arr a /\ length a = DECK_SIZE) /\
  length (deck new_game_of_two)
  + DECK_SIZE * length (Object_keys (players new_game_of_two)) = 52.
Proof.
  split; [exact random_half_range|]. split; [exact new_game_of_two_built|].
  exact (new_Game_hands random_half nanoid_letters random_half_range (Finite 2)
           new_game_of_two new_game_of_two_built).
Defined.

Lemma new_Game_trump_witness :
  (forall k, (0 <= random_half k)%Q /\ (random_half k < 1)%Q) /\
  new_Game random_half nanoid_letters (Finite 2) = Normal new_game_of_two /\
  exists label suit, label ∈ CardLabels /\ suit ∈ CardSuits /\
    trumpSuite new_game_of_two = JStr suit /\
    last (deck new_game_of_two) = Some (JStr (card_string label suit)).
Proof.
  split; [exact random_half_range|]. split; [exact new_game_of_two_built|].
  exact (new_Game_trump random_half nanoid_letters random_half_range (Finite 2)
           new_game_of_two new_game_of_two_built).
Defined.
